(** * Wave: the Deployment controller and its test matchers

    A shallow embedding of
    - [pkg/controller/deployment/deployment_controller.go]
      ([add], [Reconcile]) and
    - [test/utils/matchers.go] ([Matcher.Update], [Matcher.Eventually],
      [eventuallyObject], [eventuallyList]),
    together with a model of the [pkg/core] handler that the controller
    delegates to.

    Calls into the API server are modelled by explicit state passing over
    an abstract world; every call that crosses the boundary (handler,
    client, controller) is also appended to a trace, so that "no further
    action" is a statement about that trace. *)

From Stdlib Require Import Strings.String Strings.Ascii Strings.Byte.
From Stdlib Require Import Structures.OrdersEx.
From stdpp Require Import base option list sorting countable strings gmap.

Local Open Scope string_scope.
Local Open Scope list_scope.

(** ** Kubernetes API types *)

(** [types.NamespacedName] *)
Record NamespacedName := mkNamespacedName {
  Namespace : string;
  Name : string;
}.

(** The resource kinds that the sources mention ([appsv1], [corev1]). *)
Inductive Kind :=
| Deployment
| StatefulSet
| DaemonSet
| ConfigMap
| Secret.

(** [metav1.OwnerReference] (the fields that owner resolution reads). *)
Record OwnerReference := mkOwnerReference {
  refKind : Kind;
  refName : string;
  refController : bool;
}.

(** [metav1.ObjectMeta] (the accessors of [metav1.Object] used here). *)
Record ObjectMeta := mkObjectMeta {
  metaName : string;
  metaNamespace : string;
  metaResourceVersion : nat;
  metaAnnotations : gmap string string;
  metaFinalizers : list string;
  metaOwnerReferences : list OwnerReference;
}.

(** [metav1.StatusReason], as far as callers distinguish it. *)
Inductive StatusReason :=
| StatusReasonNotFound
| StatusReasonConflict
| StatusReasonAlreadyExists
| StatusReasonServiceUnavailable
| StatusReasonUnknown.

(** A reference found in a pod template: the kind and name of a
    configuration object, and whether its absence blocks reconciliation. *)
Record Reference := mkReference {
  rKind : Kind;
  rName : string;
  rRequired : bool;
}.

(** Go's [error] values that can reach the controller. *)
Inductive error :=
| StatusError (reason : StatusReason) (message : string)
| MissingDependency (kind : Kind) (name : string)
| OtherError (message : string).

(** [errors.IsNotFound]: the error is an API status with reason
    [NotFound]. *)
Definition IsNotFound (err : error) : bool :=
  match err with
  | StatusError StatusReasonNotFound _ => true
  | _ => false
  end.

(** ** Pod templates ([corev1.PodTemplateSpec])

    Only the places that can mention a ConfigMap or a Secret are kept:
    volumes, projected volume sources, and the [env] / [envFrom] entries
    of containers and init containers.  [optional] is Go's [*bool] with
    [nil] read as [false]. *)

Inductive VolumeProjection :=
| ProjectedConfigMap (name : string) (optional : bool)
| ProjectedSecret (name : string) (optional : bool)
| ProjectedOther.

Inductive Volume :=
| ConfigMapVolume (name : string) (optional : bool)
| SecretVolume (secretName : string) (optional : bool)
| ProjectedVolume (sources : list VolumeProjection)
| OtherVolume.

Inductive EnvVar :=
| EnvConfigMapKeyRef (name key : string) (optional : bool)
| EnvSecretKeyRef (name key : string) (optional : bool)
| EnvLiteral (value : string).

Inductive EnvFromSource :=
| EnvFromConfigMap (name : string) (optional : bool)
| EnvFromSecret (name : string) (optional : bool).

Record Container := mkContainer {
  containerName : string;
  containerEnv : list EnvVar;
  containerEnvFrom : list EnvFromSource;
}.

Record PodTemplateSpec := mkPodTemplateSpec {
  templateAnnotations : gmap string string;
  templateVolumes : list Volume;
  templateInitContainers : list Container;
  templateContainers : list Container;
}.

(** ** Workloads and configuration objects *)

(** [appsv1.Deployment], [appsv1.StatefulSet], [appsv1.DaemonSet]: object
    metadata plus [Spec.Template]. *)
Record PodController := mkPodController {
  pcMeta : ObjectMeta;
  pcTemplate : PodTemplateSpec;
}.

(** [corev1.ConfigMap], [corev1.Secret]: object metadata plus [Data]. *)
Record ConfigObject := mkConfigObject {
  coMeta : ObjectMeta;
  coData : gmap string (list byte);
}.

Definition emptyMeta : ObjectMeta :=
  {| metaName := ""; metaNamespace := ""; metaResourceVersion := 0;
     metaAnnotations := ∅; metaFinalizers := []; metaOwnerReferences := [] |}.

Definition emptyTemplate : PodTemplateSpec :=
  {| templateAnnotations := ∅; templateVolumes := [];
     templateInitContainers := []; templateContainers := [] |}.

(** Go's zero values [&appsv1.Deployment{}], [&corev1.ConfigMap{}], ... *)
Definition zeroPodController : PodController :=
  {| pcMeta := emptyMeta; pcTemplate := emptyTemplate |}.

Definition zeroConfigObject : ConfigObject :=
  {| coMeta := emptyMeta; coData := ∅ |}.

(** [utils.Object]: a value that is both a [runtime.Object] and a
    [metav1.Object].  The five concrete types that the sources switch on
    have a constructor each; [OtherObj] stands for any other Go type with
    both interfaces (a Pod, a Service, ...), identified by its type name. *)
Inductive Object :=
| DeploymentObj (d : PodController)
| StatefulSetObj (s : PodController)
| DaemonSetObj (d : PodController)
| ConfigMapObj (c : ConfigObject)
| SecretObj (s : ConfigObject)
| OtherObj (goType : string) (m : ObjectMeta).

Definition objectMeta (obj : Object) : ObjectMeta :=
  match obj with
  | DeploymentObj d | StatefulSetObj d | DaemonSetObj d => pcMeta d
  | ConfigMapObj c | SecretObj c => coMeta c
  | OtherObj _ m => m
  end.

Definition GetName (obj : Object) : string := metaName (objectMeta obj).
Definition GetNamespace (obj : Object) : string := metaNamespace (objectMeta obj).
Definition GetAnnotations (obj : Object) : gmap string string :=
  metaAnnotations (objectMeta obj).
Definition GetFinalizers (obj : Object) : list string :=
  metaFinalizers (objectMeta obj).
Definition GetOwnerReferences (obj : Object) : list OwnerReference :=
  metaOwnerReferences (objectMeta obj).

(** [runtime.Object]: an [Object], one of the list types, or a value that
    has neither object metadata nor items. *)
Inductive RuntimeObject :=
| Single (obj : Object)
| EventList (items : list Object)
| SecretList (items : list ConfigObject)
| ConfigMapList (items : list ConfigObject)
| OtherList (goType : string)
| NoMeta (goType : string).

(** [meta.IsListType]: the value has an [Items] slice. *)
Definition IsListType (obj : RuntimeObject) : bool :=
  match obj with
  | EventList _ | SecretList _ | ConfigMapList _ | OtherList _ => true
  | Single _ | NoMeta _ => false
  end.

(** ** Effects: state passing with a trace of boundary calls

    A computation takes the world, and returns its result, the new world
    and the calls it made, in order.  The monad operations are registered
    for stdpp's [x ← m; k] notation. *)

Definition M (W C A : Type) : Type := W → A * W * list C.

#[global] Instance M_ret {W C} : MRet (M W C) := λ A a w, (a, w, []).

#[global] Instance M_bind {W C} : MBind (M W C) := λ A B f m w,
  let '(a, w1, t1) := m w in
  let '(b, w2, t2) := f a w1 in
  (b, w2, t1 ++ t2).

(** One call across the boundary: it is recorded, then performed. *)
Definition call {W C A} (c : C) (op : W → A * W) : M W C A :=
  λ w, let '(a, w') := op w in (a, w', [c]).

Definition result {W C A} (r : A * W * list C) : A := r.1.1.
Definition world {W C A} (r : A * W * list C) : W := r.1.2.
Definition trace {W C A} (r : A * W * list C) : list C := r.2.

(** ** [sigs.k8s.io/controller-runtime/pkg/reconcile] *)

Record Request := mkRequest { requestNamespacedName : NamespacedName }.

Record Result := mkResult {
  Requeue : bool;
  RequeueAfter : nat;
}.

(** Go's [reconcile.Result{}]. *)
Definition emptyResult : Result := {| Requeue := false; RequeueAfter := 0 |}.

(** ** [sigs.k8s.io/controller-runtime]: sources and event handlers *)

(** [source.Kind{Type: ...}]: the events of one resource kind. *)
Record Source := mkSource { sourceType : Kind }.

(** [handler.EnqueueRequestForObject] and [handler.EnqueueRequestForOwner]. *)
Inductive EventHandler :=
| EnqueueRequestForObject
| EnqueueRequestForOwner (IsController : bool) (OwnerType : Kind).

(** One registered watch. *)
Record Watch := mkWatch {
  watchSource : Source;
  watchHandler : EventHandler;
}.

(** The kind an object is delivered under, if it is one of the kinds
    that can be watched here. *)
Definition kindOf (obj : Object) : option Kind :=
  match obj with
  | DeploymentObj _ => Some Deployment
  | StatefulSetObj _ => Some StatefulSet
  | DaemonSetObj _ => Some DaemonSet
  | ConfigMapObj _ => Some ConfigMap
  | SecretObj _ => Some Secret
  | OtherObj _ _ => None
  end.

Definition Kind_eqb (a b : Kind) : bool :=
  match a, b with
  | Deployment, Deployment | StatefulSet, StatefulSet | DaemonSet, DaemonSet
  | ConfigMap, ConfigMap | Secret, Secret => true
  | _, _ => false
  end.

(** The owner references an [EnqueueRequestForOwner] looks at: all of
    them, or with [IsController] only the first controlling one
    ([metav1.GetControllerOf]). *)
Definition getOwnersReferences (isController : bool) (obj : Object)
    : list OwnerReference :=
  if isController then
    match filter (λ ref, refController ref = true) (GetOwnerReferences obj) with
    | ref :: _ => [ref]
    | [] => []
    end
  else GetOwnerReferences obj.

(** The requests an event handler enqueues for a changed object:
    - [EnqueueRequestForObject]: the object's own namespace and name;
    - [EnqueueRequestForOwner]: for every owner reference it looks at
      whose kind is [OwnerType], the owner's name in the object's
      namespace. *)
Definition enqueue (h : EventHandler) (obj : Object) : list Request :=
  match h with
  | EnqueueRequestForObject =>
      [ mkRequest (mkNamespacedName (GetNamespace obj) (GetName obj)) ]
  | EnqueueRequestForOwner isController ownerType =>
      (λ ref, mkRequest (mkNamespacedName (GetNamespace obj) (refName ref)))
        <$> filter (λ ref, Kind_eqb (refKind ref) ownerType = true)
                   (getOwnersReferences isController obj)
  end.

(** The requests a controller with watches [ws] receives when [obj]
    changes: each watch whose source delivers [obj]'s kind contributes
    what its handler enqueues. *)
Definition triggered (ws : list Watch) (obj : Object) : list Request :=
  w ← ws;
  match kindOf obj with
  | Some k => if Kind_eqb (sourceType (watchSource w)) k
              then enqueue (watchHandler w) obj else []
  | None => []
  end.

(** ** [pkg/controller/deployment] *)

Module deployment.

(** What [add] uses of the manager: [controller.New], which yields a
    controller handle or an error, and [Watch] on that handle. *)
Class Manager (W Ctrl : Type) := {
  New : string → W → (Ctrl + error) * W;
  DoWatch : Ctrl → Source → EventHandler → W → option error * W;
}.

Inductive CtrlCall :=
| CallNew (name : string)
| CallWatch (src : Source) (h : EventHandler).

Section add.
Context {W Ctrl : Type} `{Manager W Ctrl}.

(** [add] adds a new Controller to mgr. *)
Definition add : M W CtrlCall (option error) :=
  (* Create a new controller *)
  c ← call (CallNew "deployment-controller") (New "deployment-controller");
  match c with
  | inr err => mret (Some err)
  | inl c =>
    (* Watch for changes to Deployment *)
    err ← call (CallWatch (mkSource Deployment) EnqueueRequestForObject)
               (DoWatch c (mkSource Deployment) EnqueueRequestForObject);
    match err with
    | Some err => mret (Some err)
    | None =>
      (* Watch ConfigMaps owned by a Deployment *)
      err ← call (CallWatch (mkSource ConfigMap)
                            (EnqueueRequestForOwner false Deployment))
                 (DoWatch c (mkSource ConfigMap)
                          (EnqueueRequestForOwner false Deployment));
      match err with
      | Some err => mret (Some err)
      | None =>
        (* Watch Secrets owned by a Deployment *)
        err ← call (CallWatch (mkSource Secret)
                              (EnqueueRequestForOwner false Deployment))
                   (DoWatch c (mkSource Secret)
                            (EnqueueRequestForOwner false Deployment));
        match err with
        | Some err => mret (Some err)
        | None => mret None
        end
      end
    end
  end.
End add.

(** The watches that a run of [add] registered, read off its trace. *)
Definition watchesOf (t : list CtrlCall) : list Watch :=
  omap (λ c, match c with
             | CallWatch src h => Some (mkWatch src h)
             | CallNew _ => None
             end) t.

(** What [Reconcile] uses of [*core.Handler]: the embedded client's [Get]
    (which fills [instance] in place, hence returns it) and
    [HandleDeployment]. *)
Class Handler (W : Type) := {
  Get : NamespacedName → PodController → W → (PodController * option error) * W;
  HandleDeployment : PodController → W → (Result * option error) * W;
}.

(** The calls [Reconcile] can make on the handler. *)
Inductive Call :=
| CallGet (key : NamespacedName)
| CallHandleDeployment (instance : PodController).

Section Reconcile.
Context {W : Type} `{Handler W}.

Definition Reconcile (request : Request) : M W Call (Result * option error) :=
  (* Fetch the Deployment instance *)
  let instance := zeroPodController in
  '(instance, err) ← call (CallGet (requestNamespacedName request))
                          (Get (requestNamespacedName request) instance);
  match err with
  | Some err =>
      if IsNotFound err then
        (* Object not found, return. *)
        mret (emptyResult, None)
      else
        (* Error reading the object - requeue the request. *)
        mret (emptyResult, Some err)
  | None =>
      call (CallHandleDeployment instance) (HandleDeployment instance)
  end.
End Reconcile.

End deployment.

(** ** [test/utils]: Gomega matchers over the controller-runtime client *)

(** What a Go function leaves behind: a value, or a panic. *)
Inductive PanicValue :=
| PanicString (msg : string)
| PanicError (err : error).

Inductive Outcome (A : Type) :=
| Returned (a : A)
| Panicked (p : PanicValue).
Arguments Returned {A} a.
Arguments Panicked {A} p.

Module utils.

(** What the matchers use of [client.Client].  [Get] and [List] decode
    into the object they are given, so they return it. *)
Class Client (W : Type) := {
  Get : NamespacedName → Object → W → (Object * option error) * W;
  Update : Object → W → option error * W;
  List : RuntimeObject → W → (RuntimeObject * option error) * W;
}.

Inductive Call :=
| CallGet (key : NamespacedName) (into : Object)
| CallUpdate (obj : Object)
| CallList (into : RuntimeObject).

(** [UpdateFunc] modifies the object fetched from the API server before
    sending the update. *)
Definition UpdateFunc : Type := Object → Object.

(** What [gomega.Eventually] is handed: the function it polls. *)
Inductive AsyncAssertion (W : Type) :=
| PollError (f : Object → M W Call (option error))
| PollObject (f : M W Call (Outcome Object))
| PollList (f : M W Call (Outcome RuntimeObject)).
Arguments PollError {W} f.
Arguments PollObject {W} f.
Arguments PollList {W} f.

Section Matcher.
Context {W : Type} `{Client W}.

(** [Matcher.Update].  The closure [update] is what Gomega polls; [obj]
    is a pointer shared by all attempts and overwritten by [Get], so
    the closure takes the pointee's current contents [cur].  The key
    is computed once, from the object as passed in. *)
Definition MatcherUpdate (obj : Object) (fn : UpdateFunc) : AsyncAssertion W :=
  let key := {| Name := GetName obj; Namespace := GetNamespace obj |} in
  let update := λ cur : Object,
    '(cur, err) ← call (CallGet key cur) (Get key cur);
    match err with
    | Some err => mret (Some err)
    | None => call (CallUpdate (fn cur)) (Update (fn cur))
    end in
  PollError update.

(** [eventuallyObject] gets an individual object from the API server. *)
Definition eventuallyObject (obj : Object) : AsyncAssertion W :=
  let key := {| Name := GetName obj; Namespace := GetNamespace obj |} in
  let get : M W Call (Outcome Object) :=
    let u :=
      match obj with
      | StatefulSetObj _ => Returned (StatefulSetObj zeroPodController)
      | ConfigMapObj _ => Returned (ConfigMapObj zeroConfigObject)
      | SecretObj _ => Returned (SecretObj zeroConfigObject)
      | DeploymentObj _ => Returned (DeploymentObj zeroPodController)
      | DaemonSetObj _ => Returned (DaemonSetObj zeroPodController)
      | OtherObj _ _ => Panicked (PanicString "Unknown Object type.")
      end in
    match u with
    | Panicked p => mret (Panicked p)
    | Returned u =>
        '(u, err) ← call (CallGet key u) (Get key u);
        match err with
        | Some err => mret (Panicked (PanicError err))
        | None => mret (Returned u)
        end
    end in
  PollObject get.

(** [eventuallyList] gets a list type from the API server. *)
Definition eventuallyList (obj : RuntimeObject) : AsyncAssertion W :=
  let list : M W Call (Outcome RuntimeObject) :=
    let u :=
      match obj with
      | EventList _ => Returned (EventList [])
      | SecretList _ => Returned (SecretList [])
      | ConfigMapList _ => Returned (ConfigMapList [])
      | _ => Panicked (PanicString "Unknown List type.")
      end in
    match u with
    | Panicked p => mret (Panicked p)
    | Returned u =>
        '(u, err) ← call (CallList u) (List u);
        match err with
        | Some err => mret (Panicked (PanicError err))
        | None => mret (Returned u)
        end
    end in
  PollList list.

(** [Matcher.Eventually] continually gets the object from the API for
    comparison. *)
Definition Eventually (obj : RuntimeObject) : Outcome (AsyncAssertion W) :=
  (* If the object is a list, return a list *)
  if IsListType obj then Returned (eventuallyList obj)
  else
    match obj with
    | Single o => Returned (eventuallyObject o)
    | _ => (* Should not get here *) Panicked (PanicString "Unknown object.")
    end.
End Matcher.

(** Two objects have the same concrete Go type. *)
Definition sameType (a b : Object) : bool :=
  match a, b with
  | DeploymentObj _, DeploymentObj _ | StatefulSetObj _, StatefulSetObj _
  | DaemonSetObj _, DaemonSetObj _ | ConfigMapObj _, ConfigMapObj _
  | SecretObj _, SecretObj _ => true
  | OtherObj s _, OtherObj t _ => String.eqb s t
  | _, _ => false
  end.

End utils.

(** ** [test/utils]: the matchers that poll the caller's own object, and
    the pod-template transform *)

Module matchers.

(** What [gomega.Consistently] is handed by [consistentlyObject]: a
    function of the current contents of the caller's object. *)
Inductive SharedAssertion (W : Type) :=
| PollShared (f : Object → M W utils.Call (Outcome Object)).
Arguments PollShared {W} f.

Section Matcher.
Context {W : Type} `{utils.Client W}.

(** [Matcher.Get] gets the object from the API server.  The closure [get]
    decodes into the caller's object, whose current contents are [cur]. *)
Definition MatcherGet (obj : Object) : utils.AsyncAssertion W :=
  let key := {| Name := GetName obj; Namespace := GetNamespace obj |} in
  let get := λ cur : Object,
    '(cur, err) ← call (utils.CallGet key cur) (utils.Get key cur);
    mret err in
  utils.PollError get.

(** [consistentlyObject] gets an individual object from the API server. *)
Definition consistentlyObject (obj : Object) : SharedAssertion W :=
  let key := {| Name := GetName obj; Namespace := GetNamespace obj |} in
  let get := λ cur : Object,
    '(cur, err) ← call (utils.CallGet key cur) (utils.Get key cur);
    match err with
    | Some err => mret (Panicked (PanicError err))
    | None => mret (Returned cur)
    end in
  PollShared get.

(** [Matcher.Consistently] continually gets the object from the API for
    comparison. *)
Definition Consistently (obj : Object) : SharedAssertion W :=
  consistentlyObject obj.
End Matcher.

(** [WithPodTemplateAnnotations]: the function it hands to
    [gomega.WithTransform]. *)
Definition WithPodTemplateAnnotations (obj : Object) : Outcome (gmap string string) :=
  match obj with
  | DeploymentObj d => Returned (templateAnnotations (pcTemplate d))
  | StatefulSetObj s => Returned (templateAnnotations (pcTemplate s))
  | DaemonSetObj d => Returned (templateAnnotations (pcTemplate d))
  | _ => Panicked (PanicString "Unknown pod template type.")
  end.

(** The fresh list that [eventuallyList] hands to [List] for a list of one
    of the three known types. *)
Definition emptyLike (obj : RuntimeObject) : RuntimeObject :=
  match obj with
  | EventList _ => EventList []
  | SecretList _ => SecretList []
  | ConfigMapList _ => ConfigMapList []
  | other => other
  end.

End matchers.

(** ** [pkg/core]: the handler behind [HandleDeployment]

    The sources of [pkg/core] are not part of the files above; the
    definitions of this module follow the written specification of the
    engine (Reference Extractor, Fingerprint Engine, Dependency Tracker,
    Reconciliation Orchestrator). *)

#[global] Instance Kind_eq_dec : EqDecision Kind.
Proof. solve_decision. Defined.

#[global] Instance Kind_countable : Countable Kind.
Proof.
  refine (inj_countable'
    (λ k, match k with
          | Deployment => 0 | StatefulSet => 1 | DaemonSet => 2
          | ConfigMap => 3 | Secret => 4
          end)
    (λ n, match n with
          | 0 => Deployment | 1 => StatefulSet | 2 => DaemonSet
          | 3 => ConfigMap | _ => Secret
          end) _).
  by intros [].
Defined.

#[global] Instance OwnerReference_eq_dec : EqDecision OwnerReference.
Proof. solve_decision. Defined.

#[global] Instance Reference_eq_dec : EqDecision Reference.
Proof. solve_decision. Defined.

Module core.

(** Modelled from the spec: pkg/core, its constants (§6).
    The engine-reserved annotation key on the pod template. *)
Definition ConfigHashAnnotation : string := "wave.pusher.com/config-hash".

(** Modelled from the spec: pkg/core, its constants (§6).
    The shared finalizer token (a fixed constant of the engine). *)
Definition FinalizerString : string := "wave.pusher.com/finalizer".

(** *** Reference Extractor *)

(** Modelled from the spec: pkg/core, the Reference Extractor (§4.1).  The identity of a reference: kind and name. *)
Abbreviation Identity := (Kind * string)%type.

Definition refId (r : Reference) : Identity := (rKind r, rName r).

Definition kindName (k : Kind) : string :=
  match k with
  | Deployment => "Deployment"
  | StatefulSet => "StatefulSet"
  | DaemonSet => "DaemonSet"
  | ConfigMap => "ConfigMap"
  | Secret => "Secret"
  end.

(** Modelled from the spec: pkg/core, the Reference Extractor (§4.1).  Lexicographic by kind, then by name. *)
Definition idCompare (a b : Identity) : comparison :=
  match String_as_OT.compare (kindName a.1) (kindName b.1) with
  | Eq => String_as_OT.compare a.2 b.2
  | c => c
  end.

Definition idLt (a b : Identity) : Prop := idCompare a b = Lt.

Definition projectionRefs (p : VolumeProjection) : list Reference :=
  match p with
  | ProjectedConfigMap name optional => [mkReference ConfigMap name (negb optional)]
  | ProjectedSecret name optional => [mkReference Secret name (negb optional)]
  | ProjectedOther => []
  end.

Definition volumeRefs (v : Volume) : list Reference :=
  match v with
  | ConfigMapVolume name optional => [mkReference ConfigMap name (negb optional)]
  | SecretVolume name optional => [mkReference Secret name (negb optional)]
  | ProjectedVolume sources => p ← sources; projectionRefs p
  | OtherVolume => []
  end.

Definition envRefs (e : EnvVar) : list Reference :=
  match e with
  | EnvConfigMapKeyRef name _ optional => [mkReference ConfigMap name (negb optional)]
  | EnvSecretKeyRef name _ optional => [mkReference Secret name (negb optional)]
  | EnvLiteral _ => []
  end.

Definition envFromRefs (e : EnvFromSource) : list Reference :=
  match e with
  | EnvFromConfigMap name optional => [mkReference ConfigMap name (negb optional)]
  | EnvFromSecret name optional => [mkReference Secret name (negb optional)]
  end.

Definition containerRefs (c : Container) : list Reference :=
  (e ← containerEnv c; envRefs e) ++ (e ← containerEnvFrom c; envFromRefs e).

(** Modelled from the spec: pkg/core, the Reference Extractor (§4.1).  Every mention of a configuration object in the template, in the
    order the template is walked: volumes (with their projected
    sources), then init containers, then containers. *)
Definition occurrences (t : PodTemplateSpec) : list Reference :=
  (v ← templateVolumes t; volumeRefs v)
  ++ (c ← templateInitContainers t; containerRefs c)
  ++ (c ← templateContainers t; containerRefs c).

(** Modelled from the spec: pkg/core, the Reference Extractor (§4.1).  Insert one occurrence in an identity-ordered list; an occurrence of
    an identity already present is merged into it, required-ness being
    the logical OR. *)
Fixpoint insertRef (r : Reference) (l : list Reference) : list Reference :=
  match l with
  | [] => [r]
  | x :: l' =>
      match idCompare (refId r) (refId x) with
      | Lt => r :: x :: l'
      | Eq => mkReference (rKind x) (rName x) (rRequired r || rRequired x) :: l'
      | Gt => x :: insertRef r l'
      end
  end.

(** Modelled from the spec: pkg/core, the Reference Extractor (§4.1).  [Extract(podTemplate)]: the deduplicated references, ordered by kind
    then name. *)
Definition Extract (t : PodTemplateSpec) : list Reference :=
  foldr insertRef [] (occurrences t).

(** *** Fingerprint Engine *)

(** Modelled from the spec: pkg/core, the Fingerprint Engine (§4.2).  The content of one configuration object as handed to the engine: a
    Go map, written as its key/value pairs in the order an iteration
    happened to produce them. *)
Abbreviation Content := (list (string * list byte)) (only parsing).

(** Modelled from the spec: pkg/core, the Fingerprint Engine (§4.2).  The fetched contents, one entry per configuration object found, in
    the order the fetches completed. *)
Abbreviation Fetched := (list ((Kind * string) * list (string * list byte))) (only parsing).

(** Modelled from the spec: pkg/core, the Fingerprint Engine (§4.2).  The digest and the byte encodings it is computed over.  The
    specification fixes no particular hash or wire format. *)
Class Encoding := {
  digest : list byte → string;
  encodeIdentity : Identity → list byte;
  encodePair : string * list byte → list byte;
}.

Definition keyLe (a b : string * list byte) : Prop :=
  String_as_OT.compare a.1 b.1 ≠ Gt.

#[global] Instance keyLe_dec : RelDecision keyLe.
Proof. intros a b. unfold keyLe. solve_decision. Defined.

Definition sortByKey (c : Content) : Content := merge_sort keyLe c.

Fixpoint lookupFetched (id : Identity) (f : Fetched) : option Content :=
  match f with
  | [] => None
  | (i, c) :: f' => if decide (i = id) then Some c else lookupFetched id f'
  end.

Section Fingerprint.
Context `{Encoding}.

(** Modelled from the spec: pkg/core, the Fingerprint Engine (§4.2).  The stable serialization of one content: its pairs sorted by key. *)
Definition serialize (c : Content) : list byte :=
  p ← sortByKey c; encodePair p.

(** Modelled from the spec: pkg/core, the Fingerprint Engine (§4.2).  The byte stream: for each reference, in the given order, its
    identity and the serialization of its content.  A missing content
    fails for a required reference and counts as empty for an
    optional one. *)
Fixpoint stream (refs : list Reference) (fetched : Fetched)
    : list byte + error :=
  match refs with
  | [] => inl []
  | r :: rs =>
      match lookupFetched (refId r) fetched, rRequired r with
      | None, true => inr (MissingDependency (rKind r) (rName r))
      | content, _ =>
          match stream rs fetched with
          | inr err => inr err
          | inl tl =>
              inl (encodeIdentity (refId r)
                   ++ serialize (default [] content) ++ tl)
          end
      end
  end.

(** Modelled from the spec: pkg/core, the Fingerprint Engine (§4.2).  [Fingerprint(references, fetchedContents)]. *)
Definition Fingerprint (refs : list Reference) (fetched : Fetched)
    : string + error :=
  match stream refs fetched with
  | inl bytes => inl (digest bytes)
  | inr err => inr err
  end.
End Fingerprint.

(** *** The backing store *)

(** Modelled from the spec: pkg/core, the store interface it consumes (§6).
    Deployments by (namespace, name); configuration objects by
    namespace, then by (kind, name). *)
Record Cluster := mkCluster {
  deployments : gmap (string * string) PodController;
  configs : gmap string (gmap Identity ConfigObject);
}.

Inductive EventType := EventNormal | EventWarning.

(** Modelled from the spec: pkg/core, the store interface it consumes (§6).
    The requests the handler sends: reads, conditional updates, and
    recorded events. *)
Inductive StoreCall :=
| ReqGetDeployment (namespace name : string)
| ReqUpdateDeployment (obj : PodController)
| ReqGetConfig (namespace : string) (id : Identity)
| ReqListConfigs (namespace : string)
| ReqUpdateConfig (namespace : string) (id : Identity) (obj : ConfigObject)
| ReqEvent (etype : EventType) (namespace name reason : string).

(** Modelled from the spec: pkg/core, the store interface it consumes (§6).
    The requests that write to an Owner or to a Dependency. *)
Definition isWrite (c : StoreCall) : bool :=
  match c with
  | ReqUpdateDeployment _ | ReqUpdateConfig _ _ _ => true
  | _ => false
  end.

Definition withName (namespace name : string) (m : ObjectMeta) : ObjectMeta :=
  {| metaName := name; metaNamespace := namespace;
     metaResourceVersion := metaResourceVersion m;
     metaAnnotations := metaAnnotations m;
     metaFinalizers := metaFinalizers m;
     metaOwnerReferences := metaOwnerReferences m |}.

Definition nextVersion (m : ObjectMeta) : ObjectMeta :=
  {| metaName := metaName m; metaNamespace := metaNamespace m;
     metaResourceVersion := S (metaResourceVersion m);
     metaAnnotations := metaAnnotations m;
     metaFinalizers := metaFinalizers m;
     metaOwnerReferences := metaOwnerReferences m |}.

Definition withOwnership (refs : list OwnerReference) (fins : list string)
    (m : ObjectMeta) : ObjectMeta :=
  {| metaName := metaName m; metaNamespace := metaNamespace m;
     metaResourceVersion := metaResourceVersion m;
     metaAnnotations := metaAnnotations m;
     metaFinalizers := fins;
     metaOwnerReferences := refs |}.

Definition notFound : error := StatusError StatusReasonNotFound "not found".
Definition conflict : error :=
  StatusError StatusReasonConflict "the object has been modified".

(** Modelled from the spec: pkg/core, the store interface it consumes (§6).
    [Get] of a Deployment: the stored object, served under the name it
    is stored at, or [NotFound]. *)
Definition getDeployment (namespace name : string) (c : Cluster)
    : (PodController + error) * Cluster :=
  match deployments c !! (namespace, name) with
  | Some d => (inl (mkPodController (withName namespace name (pcMeta d))
                                    (pcTemplate d)), c)
  | None => (inr notFound, c)
  end.

(** Modelled from the spec: pkg/core, the store interface it consumes (§6).
    [Update] of a Deployment, conditioned on the version last read. *)
Definition updateDeployment (d : PodController) (c : Cluster)
    : option error * Cluster :=
  let key := (metaNamespace (pcMeta d), metaName (pcMeta d)) in
  match deployments c !! key with
  | None => (Some notFound, c)
  | Some cur =>
      if decide (metaResourceVersion (pcMeta cur) = metaResourceVersion (pcMeta d))
      then (None,
            mkCluster (<[key := mkPodController (nextVersion (pcMeta d))
                                                (pcTemplate d)]> (deployments c))
                      (configs c))
      else (Some conflict, c)
  end.

Definition getConfig (namespace : string) (id : Identity) (c : Cluster)
    : option ConfigObject * Cluster :=
  ((configs c !!! namespace) !! id, c).

Definition listConfigs (namespace : string) (c : Cluster)
    : gmap Identity ConfigObject * Cluster :=
  (configs c !!! namespace, c).

(** Modelled from the spec: pkg/core, the store interface it consumes (§6).
    [Update] of a configuration object, conditioned on the version last
    read. *)
Definition updateConfig (namespace : string) (id : Identity)
    (obj : ConfigObject) (c : Cluster) : option error * Cluster :=
  match (configs c !!! namespace) !! id with
  | None => (Some notFound, c)
  | Some cur =>
      if decide (metaResourceVersion (coMeta cur) = metaResourceVersion (coMeta obj))
      then (None,
            mkCluster (deployments c)
              (<[namespace :=
                   <[id := mkConfigObject (nextVersion (coMeta obj)) (coData obj)]>
                     (configs c !!! namespace)]> (configs c)))
      else (Some conflict, c)
  end.

(** Modelled from the spec: pkg/core, the store interface it consumes (§6).
    Recording an event changes neither Owners nor Dependencies. *)
Definition recordEvent (c : Cluster) : unit * Cluster := (tt, c).

(** *** Dependency Tracker *)

(** Modelled from the spec: pkg/core, the Dependency Tracker (§4.3).  An Owner within its namespace: kind and name. *)
Abbreviation Owner := (Kind * string)%type (only parsing).

(** Modelled from the spec: pkg/core, the Dependency Tracker (§4.3).  An ownership edge is a non-controlling owner reference. *)
Definition isEdge (ref : OwnerReference) : bool := negb (refController ref).

Definition pointsAt (o : Owner) (ref : OwnerReference) : bool :=
  isEdge ref && bool_decide (refKind ref = o.1) && bool_decide (refName ref = o.2).

Definition hasEdgeTo (o : Owner) (dep : ConfigObject) : bool :=
  existsb (pointsAt o) (metaOwnerReferences (coMeta dep)).

Definition hasEdge (dep : ConfigObject) : bool :=
  existsb isEdge (metaOwnerReferences (coMeta dep)).

Definition hasFinalizer (dep : ConfigObject) : bool :=
  bool_decide (FinalizerString ∈ metaFinalizers (coMeta dep)).

(** Modelled from the spec: pkg/core, the Dependency Tracker (§4.3).  Remove the Owner's edge; if that was the last edge, remove the
    finalizer. *)
Definition removeEdge (o : Owner) (dep : ConfigObject) : ConfigObject :=
  let refs := filter (λ ref, pointsAt o ref = false)
                     (metaOwnerReferences (coMeta dep)) in
  let fins := if existsb isEdge refs then metaFinalizers (coMeta dep)
              else filter (λ f, f ≠ FinalizerString)
                          (metaFinalizers (coMeta dep)) in
  mkConfigObject (withOwnership refs fins (coMeta dep)) (coData dep).

(** Modelled from the spec: pkg/core, the Dependency Tracker (§4.3).  Add the Owner's edge; add the finalizer if not already present. *)
Definition addEdge (o : Owner) (dep : ConfigObject) : ConfigObject :=
  let refs := metaOwnerReferences (coMeta dep)
              ++ [mkOwnerReference o.1 o.2 false] in
  let fins := if bool_decide (FinalizerString ∈ metaFinalizers (coMeta dep))
              then metaFinalizers (coMeta dep)
              else metaFinalizers (coMeta dep) ++ [FinalizerString] in
  mkConfigObject (withOwnership refs fins (coMeta dep)) (coData dep).

(** Modelled from the spec: pkg/core, the Dependency Tracker (§4.3).  A mutation on the Dependency of the given identity. *)
Inductive Mutation :=
| RemoveEdge (id : Identity)
| AddEdge (id : Identity).

(** Modelled from the spec: pkg/core, the Dependency Tracker (§4.3).  What one desired reference asks for, given the current state. *)
Definition desiredStep (o : Owner) (current : gmap Identity ConfigObject)
    (r : Reference) : list (Mutation + error) :=
  match current !! refId r with
  | Some dep => if hasEdgeTo o dep then [] else [inl (AddEdge (refId r))]
  | None => if rRequired r then [inr (MissingDependency (rKind r) (rName r))]
            else []
  end.

(** Modelled from the spec: pkg/core, the Dependency Tracker (§4.3).  [Sync(owner, desiredReferences, currentDependencyState)]: the
    mutations to apply, removals of stale edges first, and the
    failures. *)
Definition Sync (o : Owner) (desired : list Reference)
    (current : gmap Identity ConfigObject) : list Mutation * list error :=
  let stale :=
    filter (λ p, hasEdgeTo o p.2 = true ∧ p.1 ∉ refId <$> desired)
           (map_to_list current) in
  let steps := r ← desired; desiredStep o current r in
  (((λ p, RemoveEdge p.1) <$> stale)
     ++ omap (λ s, match s with inl m => Some m | inr _ => None end) steps,
   omap (λ s, match s with inr e => Some e | inl _ => None end) steps).

(** Modelled from the spec: pkg/core, the Dependency Tracker (§4.3).  Apply one mutation as a read-modify-write on its Dependency.  The
    patch is add-if-absent / remove-if-present: when the freshly read
    object already is as desired, nothing is written. *)
Definition applyMutation (namespace : string) (o : Owner) (m : Mutation)
    : M Cluster StoreCall (option error) :=
  match m with
  | RemoveEdge id =>
      dep ← call (ReqGetConfig namespace id) (getConfig namespace id);
      match dep with
      | None => mret None
      | Some dep =>
          if hasEdgeTo o dep
          then call (ReqUpdateConfig namespace id (removeEdge o dep))
                    (updateConfig namespace id (removeEdge o dep))
          else mret None
      end
  | AddEdge id =>
      dep ← call (ReqGetConfig namespace id) (getConfig namespace id);
      match dep with
      | None => mret (Some (MissingDependency id.1 id.2))
      | Some dep =>
          if hasEdgeTo o dep
          then mret None
          else call (ReqUpdateConfig namespace id (addEdge o dep))
                    (updateConfig namespace id (addEdge o dep))
      end
  end.

(** Modelled from the spec: pkg/core, the Dependency Tracker (§4.3).  Apply the mutations in order; a failure on one does not block the
    others. *)
Fixpoint applyMutations (namespace : string) (o : Owner) (ms : list Mutation)
    : M Cluster StoreCall (list error) :=
  match ms with
  | [] => mret []
  | m :: ms' =>
      e ← applyMutation namespace o m;
      es ← applyMutations namespace o ms';
      mret (option_list e ++ es)
  end.

(** *** Reconciliation Orchestrator *)

(** Modelled from the spec: pkg/core, the Reconciliation Orchestrator (§4.4).  Fetch the Dependency of every reference, in order.  A required
    reference that is missing ends the fetch with [MissingDependency];
    an optional one that is missing contributes nothing. *)
Fixpoint fetchDependencies (namespace : string) (refs : list Reference)
    : M Cluster StoreCall (Fetched + error) :=
  match refs with
  | [] => mret (inl [])
  | r :: rs =>
      dep ← call (ReqGetConfig namespace (refId r)) (getConfig namespace (refId r));
      match dep, rRequired r with
      | None, true => mret (inr (MissingDependency (rKind r) (rName r)))
      | _, _ =>
          rest ← fetchDependencies namespace rs;
          match rest with
          | inr err => mret (inr err)
          | inl f =>
              mret (inl (match dep with
                         | Some d => (refId r, map_to_list (coData d)) :: f
                         | None => f
                         end))
          end
      end
  end.

Definition storedHash (d : PodController) : option string :=
  templateAnnotations (pcTemplate d) !! ConfigHashAnnotation.

(** Modelled from the spec: pkg/core, the Reconciliation Orchestrator (§4.4).  Write the digest under the engine's annotation key; all other
    annotations are left as they are. *)
Definition setConfigHash (hash : string) (d : PodController) : PodController :=
  mkPodController (pcMeta d)
    (mkPodTemplateSpec
       (<[ConfigHashAnnotation := hash]> (templateAnnotations (pcTemplate d)))
       (templateVolumes (pcTemplate d))
       (templateInitContainers (pcTemplate d))
       (templateContainers (pcTemplate d))).

Definition event (etype : EventType) (d : PodController) (reason : string)
    : M Cluster StoreCall unit :=
  call (ReqEvent etype (metaNamespace (pcMeta d)) (metaName (pcMeta d)) reason)
       recordEvent.

Section Orchestrator.
Context `{Encoding}.

(** Modelled from the spec: pkg/core, the Reconciliation Orchestrator (§4.4).  Steps 2 to 7 of the orchestrator, on an Owner already fetched. *)
Definition HandleDeployment (instance : PodController)
    : M Cluster StoreCall (Result * option error) :=
  let namespace := metaNamespace (pcMeta instance) in
  let owner : Owner := (Deployment, metaName (pcMeta instance)) in
  let refs := Extract (pcTemplate instance) in
  fetched ← fetchDependencies namespace refs;
  match fetched with
  | inr err =>
      _ ← event EventWarning instance "MissingDependency";
      mret (emptyResult, Some err)
  | inl fetched =>
      match Fingerprint refs fetched with
      | inr err =>
          _ ← event EventWarning instance "MissingDependency";
          mret (emptyResult, Some err)
      | inl hash =>
          let changed := bool_decide (storedHash instance ≠ Some hash) in
          werr ← (if changed
                  then call (ReqUpdateDeployment (setConfigHash hash instance))
                            (updateDeployment (setConfigHash hash instance))
                  else mret None);
          match werr with
          | Some err =>
              _ ← event EventWarning instance "WriteConflict";
              mret (emptyResult, Some err)
          | None =>
              current ← call (ReqListConfigs namespace) (listConfigs namespace);
              errs ← applyMutations namespace owner (Sync owner refs current).1;
              match (Sync owner refs current).2 ++ errs with
              | err :: _ =>
                  _ ← event EventWarning instance "SyncFailed";
                  mret (emptyResult, Some err)
              | [] =>
                  _ ← event EventNormal instance
                        (if changed then "Rolled" else "Unchanged");
                  mret (emptyResult, None)
              end
          end
      end
  end.
End Orchestrator.

(** Modelled from the spec: pkg/core, the Reconciliation Orchestrator (§4.4).  The cluster together with the requests it has served so far. *)
Record World := mkWorld {
  cluster : Cluster;
  served : list StoreCall;
}.

Definition serve {A} (m : M Cluster StoreCall A) (w : World) : A * World :=
  let '(a, c, t) := m (cluster w) in (a, mkWorld c (served w ++ t)).

(** Modelled from the spec: pkg/core, the Reconciliation Orchestrator (§4.4).  The handler given to the Deployment controller: [Get] is the store's
    read of a Deployment, [HandleDeployment] the orchestrator. *)
#[global] Instance handler `{Encoding} : deployment.Handler World := {
  deployment.Get key instance :=
    serve (d ← call (ReqGetDeployment (Namespace key) (Name key))
                    (getDeployment (Namespace key) (Name key));
           mret (match d with
                 | inl d => (d, None)
                 | inr err => (instance, Some err)
                 end));
  deployment.HandleDeployment instance := serve (HandleDeployment instance);
}.

(** Modelled from the spec: pkg/core, the Reconciliation Orchestrator (§4.4).  One run of the orchestrator on a cluster: the controller's
    [Reconcile] over this handler.  Returns the result, the cluster
    afterwards, and the requests served during the run. *)
Definition Orchestrate `{Encoding} (request : Request) (c : Cluster)
    : (Result * option error) * Cluster * list StoreCall :=
  let w := world (deployment.Reconcile request (mkWorld c [])) in
  (result (deployment.Reconcile request (mkWorld c [])), cluster w, served w).

(** *** Notions used to state the properties *)

(** The order of an extraction: references compared by identity. *)
Definition refLt (a b : Reference) : Prop := idLt (refId a) (refId b).

(** Two fetch results that hold, for every identity, the same content up
    to the order of its pairs. *)
Definition sameFetched (f f' : Fetched) : Prop :=
  ∀ id, match lookupFetched id f, lookupFetched id f' with
        | Some c, Some c' => NoDup c.*1 ∧ c ≡ₚ c'
        | None, None => True
        | _, _ => False
        end.

(** The byte stream with every missing content read as empty. *)
Definition lenientStream `{Encoding} (refs : list Reference) (fetched : Fetched)
    : list byte :=
  r ← refs;
  encodeIdentity (refId r) ++ serialize (default [] (lookupFetched (refId r) fetched)).

(** The Dependency of a given identity in a namespace, if it exists. *)
Definition dependency (c : Cluster) (ns : string) (id : Identity) : option ConfigObject :=
  (configs c !!! ns) !! id.

Definition mutationId (m : Mutation) : Identity :=
  match m with RemoveEdge id | AddEdge id => id end.

(** An object as [updateConfig] stores it. *)
Definition stored (obj : ConfigObject) : ConfigObject :=
  mkConfigObject (nextVersion (coMeta obj)) (coData obj).

(** The Dependency that [applyMutation] leaves behind. *)
Definition patched (o : Owner) (m : Mutation) (dep : ConfigObject) : ConfigObject :=
  match m with
  | RemoveEdge _ => if hasEdgeTo o dep then stored (removeEdge o dep) else dep
  | AddEdge _ => if hasEdgeTo o dep then dep else stored (addEdge o dep)
  end.

(** The requests of a trace that write to an Owner or a Dependency. *)
Definition writes (t : list StoreCall) : list StoreCall :=
  filter (λ q, isWrite q = true) t.

(** The Owner step of the orchestrator: the annotation is written if the
    digest differs from the stored one. *)
Definition ownerStep (inst : PodController) (h : string) (c : Cluster)
    : option error * Cluster * list StoreCall :=
  if bool_decide (storedHash inst ≠ Some h)
  then call (ReqUpdateDeployment (setConfigHash h inst))
            (updateDeployment (setConfigHash h inst)) c
  else (None, c, []).

(** The Deployment as [getDeployment] serves it for a request. *)
Definition servedInstance (request : Request) (d : PodController) : PodController :=
  mkPodController
    (withName (Namespace (requestNamespacedName request))
              (Name (requestNamespacedName request)) (pcMeta d))
    (pcTemplate d).

(** The Dependencies of a namespace that carry an ownership edge to the
    Owner. *)
Definition edgesTo (c : Cluster) (ns : string) (o : Owner) : gset Identity :=
  dom (filter (λ p : Identity * ConfigObject, hasEdgeTo o p.2 = true) (configs c !!! ns)).

(** Every Dependency carries the finalizer if and only if it carries at
    least one ownership edge. *)
Definition FinalizerInvariant (c : Cluster) : Prop :=
  map_Forall (λ _ deps,
    map_Forall (λ (_ : Identity) dep, hasFinalizer dep = hasEdge dep) deps) (configs c).

(** The clusters that the Dependency Tracker reaches from [c0]: after any
    number of [Sync]s, for any Owners and desired references, each
    stopped after any number of its mutations. *)
Inductive SyncReach (c0 : Cluster) : Cluster → Prop :=
| reach_start : SyncReach c0 c0
| reach_sync (c : Cluster) (ns : string) (o : Owner) (desired : list Reference)
    (ms : list Mutation) :
    SyncReach c0 c →
    ms `prefix_of` (Sync o desired (configs c !!! ns)).1 →
    SyncReach c0 (world (applyMutations ns o ms c)).

End core.

(** ** Concrete instances of the interfaces, for the examples *)

Module sample.

(** A handler whose store cannot be reached. *)
Definition unavailable : error :=
  StatusError StatusReasonServiceUnavailable "the server is currently unable to handle the request".

Definition offline : deployment.Handler unit := {|
  deployment.Get key instance w := ((instance, Some unavailable), w);
  deployment.HandleDeployment instance w := ((emptyResult, None), w);
|}.

(** A manager that creates the controller and keeps the watches it is
    given, in order. *)
Definition registry : deployment.Manager (list Watch) unit := {|
  deployment.New name w := (inl tt, w);
  deployment.DoWatch c src h w := (None, w ++ [mkWatch src h]);
|}.

(** An in-memory client: objects by (namespace, name). *)
Definition memory : utils.Client (gmap (string * string) Object) := {|
  utils.Get key into w :=
    match w !! (Namespace key, Name key) with
    | Some obj => ((obj, None), w)
    | None => ((into, Some core.notFound), w)
    end;
  utils.Update obj w :=
    match w !! (GetNamespace obj, GetName obj) with
    | Some _ => (None, <[(GetNamespace obj, GetName obj) := obj]> w)
    | None => (Some core.notFound, w)
    end;
  utils.List into w := ((into, None), w);
|}.

(** A transparent encoding: the digest is the byte stream itself, read
    as a string. *)
Definition plain : core.Encoding := {|
  core.digest bs := string_of_list_byte bs;
  core.encodeIdentity id :=
    list_byte_of_string (core.kindName id.1 ++ "/" ++ id.2 ++ ";")%string;
  core.encodePair p :=
    list_byte_of_string (p.1 ++ "=")%string ++ p.2 ++ list_byte_of_string ",";
|}.

Definition meta (namespace name : string) : ObjectMeta :=
  mkObjectMeta name namespace 0 ∅ [] [].

(** Owner [web] mounts config-map [app-config] and, optionally, the
    secret [extra]. *)
Definition web : PodController :=
  mkPodController (meta "default" "web")
    (mkPodTemplateSpec ∅
       [ConfigMapVolume "app-config" false; SecretVolume "extra" true] [] []).

Definition appConfig : ConfigObject :=
  mkConfigObject (meta "default" "app-config")
                 {[ "x" := list_byte_of_string "1" ]}.

Definition request : Request := mkRequest (mkNamespacedName "default" "web").

(** [web] and [app-config] exist; [extra] does not. *)
Definition cluster : core.Cluster :=
  core.mkCluster {[ ("default", "web") := web ]}
                 {[ "default" := {[ (ConfigMap, "app-config") := appConfig ]} ]}.

(** [web] exists; none of the objects it mounts do. *)
Definition bare : core.Cluster :=
  core.mkCluster {[ ("default", "web") := web ]} ∅.

(** The cluster after one run of the orchestrator for [web]. *)
Definition afterFirstRun : core.Cluster :=
  (@core.Orchestrate plain request cluster).1.2.

(** A manager that cannot create the controller. *)
Definition barren : deployment.Manager (list Watch) unit := {|
  deployment.New name w := (inr unavailable, w);
  deployment.DoWatch c src h w := (None, w ++ [mkWatch src h]);
|}.

(** A manager whose watch on ConfigMaps fails. *)
Definition brittle : deployment.Manager (list Watch) unit := {|
  deployment.New name w := (inl tt, w);
  deployment.DoWatch c src h w :=
    match sourceType src with
    | ConfigMap => (Some unavailable, w)
    | _ => (None, w ++ [mkWatch src h])
    end;
|}.

(** [web] with another pod template. *)
Definition webEdited : PodController :=
  mkPodController (meta "default" "web")
    (mkPodTemplateSpec ∅ [ConfigMapVolume "other-config" false] [] []).

End sample.

(** ** Notions used to state the properties of the controller and the matchers *)

(** The three watches of the Deployment controller. *)
Definition deploymentWatches : list Watch :=
  [ mkWatch (mkSource Deployment) EnqueueRequestForObject;
    mkWatch (mkSource ConfigMap) (EnqueueRequestForOwner false Deployment);
    mkWatch (mkSource Secret) (EnqueueRequestForOwner false Deployment) ].

(** The request for the Deployment named by an owner reference of a
    configuration object, in that object's namespace. *)
Definition ownerRequest (obj : Object) (ref : OwnerReference) : Request :=
  mkRequest (mkNamespacedName (GetNamespace obj) (refName ref)).

(** The fresh object that [eventuallyObject] hands to [Get] for an object
    of one of the five known types. *)
Definition freshLike (obj : Object) : Object :=
  match obj with
  | DeploymentObj _ => DeploymentObj zeroPodController
  | StatefulSetObj _ => StatefulSetObj zeroPodController
  | DaemonSetObj _ => DaemonSetObj zeroPodController
  | ConfigMapObj _ => ConfigMapObj zeroConfigObject
  | SecretObj _ => SecretObj zeroConfigObject
  | OtherObj t _ => OtherObj t emptyMeta
  end.

(** * Properties *)

(** ** [Reconcile] *)

Section ReconcileSpec.
Context {W : Type} {handler : deployment.Handler W}.

(** C1. When the fetch of the Owner returns a NotFound error,
    [Reconcile] returns the empty result and no error, the world is
    exactly as that fetch left it, and the fetch is the only call made
    on the handler: [HandleDeployment] is not called. *)
Theorem Reconcile_not_found (request : Request) (w w' : W)
    (instance : PodController) (err : error) :
  deployment.Get (requestNamespacedName request) zeroPodController w
    = ((instance, Some err), w') →
  IsNotFound err = true →
  deployment.Reconcile request w
    = ((emptyResult, None), w',
       [deployment.CallGet (requestNamespacedName request)]).
Proof.
  intros Hget Hnf.
  unfold deployment.Reconcile, mbind, M_bind, call, mret, M_ret.
  rewrite Hget. cbn. rewrite Hnf. reflexivity.
Qed.

(** C2. When the fetch of the Owner fails with an error that is not
    NotFound, [Reconcile] returns the empty result together with that
    very error, after a single fetch and no other call: there is no
    second attempt, and the world is as the failed fetch left it. *)
Theorem Reconcile_fetch_error (request : Request) (w w' : W)
    (instance : PodController) (err : error) :
  deployment.Get (requestNamespacedName request) zeroPodController w
    = ((instance, Some err), w') →
  IsNotFound err = false →
  deployment.Reconcile request w
    = ((emptyResult, Some err), w',
       [deployment.CallGet (requestNamespacedName request)]).
Proof.
  intros Hget Hnf.
  unfold deployment.Reconcile, mbind, M_bind, call, mret, M_ret.
  rewrite Hget. cbn. rewrite Hnf. reflexivity.
Qed.
End ReconcileSpec.

Lemma Reconcile_not_found_witness :
  @deployment.Reconcile _ (@core.handler sample.plain) sample.request
     (core.mkWorld (core.mkCluster ∅ ∅) [])
  = ((emptyResult, None),
     core.mkWorld (core.mkCluster ∅ ∅) [core.ReqGetDeployment "default" "web"],
     [deployment.CallGet (mkNamespacedName "default" "web")]).
Proof.
  apply (@Reconcile_not_found _ (@core.handler sample.plain) sample.request
           _ _ zeroPodController core.notFound); reflexivity.
Defined.

Lemma Reconcile_fetch_error_witness :
  @deployment.Reconcile _ sample.offline sample.request tt
  = ((emptyResult, Some sample.unavailable), tt,
     [deployment.CallGet (mkNamespacedName "default" "web")]).
Proof.
  apply (@Reconcile_fetch_error _ sample.offline sample.request
           tt tt zeroPodController sample.unavailable); reflexivity.
Defined.

(** ** [add]: the watch wiring *)

Lemma Kind_eqb_eq (a b : Kind) : Kind_eqb a b = true ↔ a = b.
Proof. destruct a, b; cbn; split; congruence. Qed.

Lemma triggered_deploymentWatches (obj : Object) (req : Request) :
  req ∈ triggered deploymentWatches obj ↔
    match obj with
    | DeploymentObj _ =>
        req = mkRequest (mkNamespacedName (GetNamespace obj) (GetName obj))
    | ConfigMapObj _ | SecretObj _ =>
        ∃ ref, ref ∈ GetOwnerReferences obj ∧ refKind ref = Deployment
               ∧ req = ownerRequest obj ref
    | _ => False
    end.
Proof.
  unfold triggered, deploymentWatches.
  destruct obj; cbn -[filter]; rewrite ?app_nil_r;
    try (rewrite elem_of_nil; tauto);
    try (rewrite list_elem_of_singleton; tauto).
  all: rewrite list_elem_of_fmap; split.
  all: try (intros (ref & -> & Hin); apply list_elem_of_filter in Hin as [Hk Hin];
            apply Kind_eqb_eq in Hk; by exists ref).
  all: intros (ref & Hin & Hk & ->); exists ref; split; [done|];
       apply list_elem_of_filter; split; [by apply Kind_eqb_eq | done].
Qed.

Section AddSpec.
Context {W Ctrl : Type} {manager : deployment.Manager W Ctrl}.

(** C3. When [add] succeeds, the watches it registered are exactly three,
    in this order: Deployments with [EnqueueRequestForObject], ConfigMaps
    and Secrets with [EnqueueRequestForOwner] for owner type Deployment and
    [IsController] false.  Under these watches a request is enqueued for a
    changed object exactly in these cases: the object is a Deployment and
    the request names it; or the object is a ConfigMap or a Secret and the
    request names, in the object's namespace, a Deployment that one of its
    owner references points at (the reference need not be a controlling
    one).  A change of any other object enqueues nothing. *)
Theorem add_watches (w : W) :
  result (deployment.add w) = None →
  deployment.watchesOf (trace (deployment.add w)) = deploymentWatches
  ∧ ∀ (obj : Object) (req : Request),
      req ∈ triggered (deployment.watchesOf (trace (deployment.add w))) obj ↔
        match obj with
        | DeploymentObj _ =>
            req = mkRequest (mkNamespacedName (GetNamespace obj) (GetName obj))
        | ConfigMapObj _ | SecretObj _ =>
            ∃ ref, ref ∈ GetOwnerReferences obj ∧ refKind ref = Deployment
                   ∧ req = ownerRequest obj ref
        | _ => False
        end.
Proof.
  intros Hok.
  assert (deployment.watchesOf (trace (deployment.add w)) = deploymentWatches)
    as Hws.
  { revert Hok.
    unfold deployment.add, mbind, M_bind, call, mret, M_ret, result, trace.
    destruct (deployment.New _ w) as [[c|e] w1]; cbn; [|done].
    destruct (deployment.DoWatch c _ _ w1) as [[e|] w2]; cbn; [done|].
    destruct (deployment.DoWatch c _ _ w2) as [[e|] w3]; cbn; [done|].
    destruct (deployment.DoWatch c _ _ w3) as [[e|] w4]; cbn; [done|].
    done. }
  split; [done|].
  intros obj req. rewrite Hws. apply triggered_deploymentWatches.
Qed.
End AddSpec.

Lemma add_watches_witness :
  deployment.watchesOf (trace (@deployment.add _ _ sample.registry [])) = deploymentWatches
  ∧ ∀ (obj : Object) (req : Request),
      req ∈ triggered
              (deployment.watchesOf (trace (@deployment.add _ _ sample.registry []))) obj ↔
        match obj with
        | DeploymentObj _ =>
            req = mkRequest (mkNamespacedName (GetNamespace obj) (GetName obj))
        | ConfigMapObj _ | SecretObj _ =>
            ∃ ref, ref ∈ GetOwnerReferences obj ∧ refKind ref = Deployment
                   ∧ req = ownerRequest obj ref
        | _ => False
        end.
Proof. apply (@add_watches _ _ sample.registry []). reflexivity. Defined.

(** ** The matchers *)

Section MatcherSpec.
Context {W : Type} {client : utils.Client W}.

(** C9. Every attempt of [Matcher.Update] begins with a [Get] of the
    object under the key computed from the object passed in.  If that
    [Get] fails, the attempt returns its error, the [Get] is the only call
    made (no [Update] is issued) and the world is as the [Get] left it.  If
    it succeeds, the attempt then issues exactly one [Update], of the
    mutation function applied to the object just read, and returns what
    that [Update] returns. *)
Theorem MatcherUpdate_attempt (obj : Object) (fn : utils.UpdateFunc)
    (cur cur' : Object) (err : option error) (w w1 : W) :
  utils.Get (mkNamespacedName (GetNamespace obj) (GetName obj)) cur w
    = ((cur', err), w1) →
  ∃ update,
    utils.MatcherUpdate obj fn = utils.PollError update
    ∧ head (trace (update cur w))
        = Some (utils.CallGet (mkNamespacedName (GetNamespace obj) (GetName obj)) cur)
    ∧ match err with
      | Some e =>
          update cur w
          = (Some e, w1,
             [utils.CallGet (mkNamespacedName (GetNamespace obj) (GetName obj)) cur])
      | None =>
          update cur w
          = ((utils.Update (fn cur') w1).1, (utils.Update (fn cur') w1).2,
             [utils.CallGet (mkNamespacedName (GetNamespace obj) (GetName obj)) cur;
              utils.CallUpdate (fn cur')])
      end.
Proof.
  intros Hget. eexists. split; [reflexivity|].
  unfold mbind, M_bind, call, mret, M_ret, trace. rewrite Hget.
  destruct err as [e|]; cbn.
  - done.
  - destruct (utils.Update (fn cur') w1) as [uerr w2]. done.
Qed.

(** C10. For a value that is not a list type:
    - if it is a Deployment, StatefulSet, DaemonSet, ConfigMap or Secret,
      [Eventually] returns an assertion whose polled function never panics
      in its type switch: every poll makes one [Get] into a fresh object of
      the same type, and returns the object read or panics with the error
      of that [Get];
    - if it is an [Object] of any other type, every poll panics with
      "Unknown Object type." before any call is made;
    - if it is no [Object] at all, [Eventually] itself panics with
      "Unknown object.". *)
Theorem Eventually_type_dispatch (obj : RuntimeObject) :
  IsListType obj = false →
  match obj with
  | Single (OtherObj t m) =>
      ∃ get, utils.Eventually obj = Returned (utils.PollObject get)
        ∧ ∀ w : W, get w = (Panicked (PanicString "Unknown Object type."), w, [])
  | Single o =>
      ∃ get, utils.Eventually obj = Returned (utils.PollObject get)
        ∧ utils.sameType (freshLike o) o = true
        ∧ ∀ w : W,
            trace (get w)
              = [utils.CallGet (mkNamespacedName (GetNamespace o) (GetName o))
                               (freshLike o)]
            ∧ (∀ msg, result (get w) ≠ Panicked (PanicString msg))
            ∧ result (get w)
              = match (utils.Get (mkNamespacedName (GetNamespace o) (GetName o))
                                 (freshLike o) w).1 with
                | (_, Some e) => Panicked (PanicError e)
                | (u, None) => Returned u
                end
  | _ => utils.Eventually (W := W) obj = Panicked (PanicString "Unknown object.")
  end.
Proof.
  intros Hlist. destruct obj as [o| | | | |]; try discriminate Hlist; [|done].
  destruct o; cbn; eexists; (split; [reflexivity|]); try done.
  all: split; [done|]; intros w.
  all: unfold mbind, M_bind, call, mret, M_ret, trace, result; cbn.
  all: match goal with |- context [utils.Get ?k ?u ?w0] =>
         destruct (utils.Get k u w0) as [[u' [e|]] w'] end; cbn.
  all: repeat split; done.
Qed.
End MatcherSpec.

Lemma MatcherUpdate_attempt_witness :
  ∃ update,
    @utils.MatcherUpdate _ sample.memory (ConfigMapObj sample.appConfig) id
      = utils.PollError update
    ∧ head (trace (update (ConfigMapObj sample.appConfig) ∅))
        = Some (utils.CallGet (mkNamespacedName "default" "app-config")
                              (ConfigMapObj sample.appConfig))
    ∧ update (ConfigMapObj sample.appConfig) ∅
        = (Some core.notFound, ∅,
           [utils.CallGet (mkNamespacedName "default" "app-config")
                          (ConfigMapObj sample.appConfig)]).
Proof.
  apply (@MatcherUpdate_attempt _ sample.memory (ConfigMapObj sample.appConfig) id
           (ConfigMapObj sample.appConfig) (ConfigMapObj sample.appConfig)
           (Some core.notFound) ∅ ∅).
  reflexivity.
Defined.

Lemma Eventually_type_dispatch_witness :
  ∃ get,
    @utils.Eventually _ sample.memory (Single (DeploymentObj sample.web))
      = Returned (utils.PollObject get)
    ∧ utils.sameType (DeploymentObj zeroPodController) (DeploymentObj sample.web) = true
    ∧ ∀ w,
        trace (get w)
          = [utils.CallGet (mkNamespacedName "default" "web")
                           (DeploymentObj zeroPodController)]
        ∧ (∀ msg, result (get w) ≠ Panicked (PanicString msg))
        ∧ result (get w)
          = match (@utils.Get _ sample.memory (mkNamespacedName "default" "web")
                              (DeploymentObj zeroPodController) w).1 with
            | (_, Some e) => Panicked (PanicError e)
            | (u, None) => Returned u
            end.
Proof.
  apply (@Eventually_type_dispatch _ sample.memory (Single (DeploymentObj sample.web))).
  reflexivity.
Defined.

(** ** The engine *)

Import core.


(** ** The order on identities *)

Ltac slt_absurd :=
  match goal with
  | L : String_as_OT.lt ?x ?x |- _ =>
      by apply (irreflexivity String_as_OT.lt) in L
  | L : String_as_OT.lt ?x ?y, L' : String_as_OT.lt ?y ?x |- _ =>
      by pose proof (irreflexivity String_as_OT.lt _ (transitivity L L'))
  end.

Lemma scompare_eq (a b : string) : String_as_OT.compare a b = Eq ↔ a = b.
Proof.
  destruct (String_as_OT.compare_spec a b) as [E|L|L];
    unfold String_as_OT.eq in *; split; try done; intros ->; slt_absurd.
Qed.

Lemma scompare_antisym (a b : string) :
  String_as_OT.compare a b = CompOpp (String_as_OT.compare b a).
Proof.
  destruct (String_as_OT.compare_spec a b) as [E|L|L],
           (String_as_OT.compare_spec b a) as [E'|L'|L'];
    unfold String_as_OT.eq in *; subst; try done;
    slt_absurd.
Qed.

Lemma scompare_lt_trans (a b c : string) :
  String_as_OT.compare a b = Lt → String_as_OT.compare b c = Lt →
  String_as_OT.compare a c = Lt.
Proof. apply (transitivity (R := String_as_OT.lt)). Qed.

Lemma kindName_inj (a b : Kind) : kindName a = kindName b → a = b.
Proof. by destruct a, b. Qed.

Lemma idCompare_eq (a b : Identity) : idCompare a b = Eq ↔ a = b.
Proof.
  unfold idCompare. destruct a as [ka na], b as [kb nb]; cbn.
  destruct (String_as_OT.compare (kindName ka) (kindName kb)) eqn:Hk.
  - apply scompare_eq, kindName_inj in Hk as ->. rewrite scompare_eq. naive_solver.
  - split; [done|]. intros [= -> ->]. by rewrite (proj2 (scompare_eq _ _)) in Hk.
  - split; [done|]. intros [= -> ->]. by rewrite (proj2 (scompare_eq _ _)) in Hk.
Qed.

Lemma idCompare_antisym (a b : Identity) : idCompare a b = CompOpp (idCompare b a).
Proof.
  unfold idCompare. rewrite (scompare_antisym (kindName a.1)).
  destruct (String_as_OT.compare (kindName b.1) (kindName a.1)); cbn; try done.
  apply scompare_antisym.
Qed.

Lemma idCompare_lt_trans (a b c : Identity) :
  idCompare a b = Lt → idCompare b c = Lt → idCompare a c = Lt.
Proof.
  unfold idCompare.
  destruct (String_as_OT.compare (kindName a.1) (kindName b.1)) eqn:Hab; try done;
  destruct (String_as_OT.compare (kindName b.1) (kindName c.1)) eqn:Hbc; try done.
  - apply scompare_eq in Hab, Hbc. rewrite Hab, Hbc, (proj2 (scompare_eq _ _) eq_refl).
    apply scompare_lt_trans.
  - apply scompare_eq in Hab. rewrite Hab, Hbc. done.
  - apply scompare_eq in Hbc. rewrite <-Hbc, Hab. done.
  - by rewrite (scompare_lt_trans _ _ _ Hab Hbc).
Qed.

Lemma idCompare_refl (a : Identity) : idCompare a a = Eq.
Proof. by apply idCompare_eq. Qed.

Lemma idCompare_gt (a b : Identity) : idCompare a b = Gt ↔ idCompare b a = Lt.
Proof. rewrite (idCompare_antisym a b). destruct (idCompare b a); naive_solver. Qed.

Lemma idCompare_cases (a b : Identity) :
  (idCompare a b = Lt ∧ idCompare b a = Gt)
  ∨ (a = b ∧ idCompare a b = Eq ∧ idCompare b a = Eq)
  ∨ (idCompare a b = Gt ∧ idCompare b a = Lt).
Proof.
  destruct (idCompare a b) eqn:Hab.
  - apply idCompare_eq in Hab as ->. rewrite idCompare_refl. naive_solver.
  - left. split; [done|]. by apply idCompare_gt.
  - right; right. split; [done|]. by apply idCompare_gt.
Qed.

Lemma refId_merged (x : Reference) (q : bool) :
  refId (mkReference (rKind x) (rName x) q) = refId x.
Proof. done. Qed.

Lemma Reference_eq (a b : Reference) :
  refId a = refId b → rRequired a = rRequired b → a = b.
Proof. destruct a, b. unfold refId. cbn. by intros [= -> ->] ->. Qed.

Ltac order_absurd :=
  repeat match goal with
         | E : refId ?a = refId ?b |- _ => rewrite E in *; clear E
         end;
  match goal with
  | H : idCompare ?a ?a = Lt |- _ => by rewrite idCompare_refl in H
  | H1 : idCompare ?a ?b = Lt, H2 : idCompare ?b ?a = Lt |- _ =>
      let F := fresh in
      pose proof (idCompare_lt_trans _ _ _ H1 H2) as F;
      by rewrite idCompare_refl in F
  | H1 : idCompare ?a ?b = Lt, H2 : idCompare ?b ?c = Lt,
    H3 : idCompare ?c ?a = Lt |- _ =>
      let F := fresh in
      pose proof (idCompare_lt_trans _ _ _ (idCompare_lt_trans _ _ _ H1 H2) H3) as F;
      by rewrite idCompare_refl in F
  end.

(** Decide the comparison of two identities, both ways round. *)
Ltac compare_ids a b :=
  let E := fresh "E" in
  destruct (idCompare_cases a b) as [[? ?]|[[E [? ?]]|[? ?]]].

Ltac simpl_insert :=
  repeat (cbn [insertRef];
          rewrite ?refId_merged;
          repeat match goal with
                 | H : idCompare ?a ?b = _ |- context [idCompare ?a ?b] => rewrite H
                 end).

Lemma insertRef_comm (a b : Reference) (l : list Reference) :
  insertRef a (insertRef b l) = insertRef b (insertRef a l).
Proof.
  induction l as [|x l IH].
  - compare_ids (refId a) (refId b); simpl_insert; try done.
    f_equal. apply Reference_eq; [done|]. cbn. apply orb_comm.
  - compare_ids (refId a) (refId b); compare_ids (refId a) (refId x);
      compare_ids (refId b) (refId x); try order_absurd; simpl_insert.
    all: try (by rewrite IH).
    all: f_equal; apply Reference_eq; cbn.
    all: by destruct (rRequired a), (rRequired b), (rRequired x).
Qed.

Lemma Extract_permutation (t t' : PodTemplateSpec) :
  occurrences t ≡ₚ occurrences t' → Extract t = Extract t'.
Proof.
  unfold Extract. intros Hp.
  induction Hp as [|r l l' _ IH|a b l|l1 l2 l3 _ IH1 _ IH2]; cbn.
  - done.
  - by rewrite IH.
  - apply insertRef_comm.
  - by rewrite IH1.
Qed.

Lemma insertRef_hd (r x : Reference) (l : list Reference) :
  HdRel refLt x l → refLt x r → HdRel refLt x (insertRef r l).
Proof.
  intros Hl Hr. destruct l as [|y l]; cbn; [by constructor|].
  apply HdRel_inv in Hl.
  destruct (idCompare (refId r) (refId y)); by constructor.
Qed.

Lemma insertRef_sorted (r : Reference) (l : list Reference) :
  Sorted refLt l → Sorted refLt (insertRef r l).
Proof.
  induction 1 as [|x l Hl IH Hx]; cbn; [by repeat constructor|].
  compare_ids (refId r) (refId x); simpl_insert.
  - by repeat constructor.
  - constructor; [done|]. destruct Hx as [|y l Hy]; constructor.
    unfold refLt in *. by rewrite refId_merged.
  - constructor; [done|]. by apply insertRef_hd.
Qed.

Lemma Extract_sorted (t : PodTemplateSpec) : Sorted refLt (Extract t).
Proof.
  unfold Extract. induction (occurrences t) as [|r l IH]; cbn; [constructor|].
  by apply insertRef_sorted.
Qed.

#[local] Instance refLt_trans : Transitive refLt.
Proof. intros a b c. apply idCompare_lt_trans. Qed.

Lemma sorted_ids_NoDup (l : list Reference) :
  Sorted refLt l → NoDup (refId <$> l).
Proof.
  intros Hs. apply Sorted_StronglySorted in Hs; [|apply _].
  induction Hs as [|x l _ IH Hx]; cbn; constructor; [|done].
  intros Hin. apply list_elem_of_fmap in Hin as (y & Hxy & Hy).
  rewrite Forall_forall in Hx. specialize (Hx y Hy).
  unfold refLt, idLt in Hx. rewrite Hxy, idCompare_refl in Hx. done.
Qed.

Lemma Extract_NoDup (t : PodTemplateSpec) : NoDup (refId <$> Extract t).
Proof. apply sorted_ids_NoDup, Extract_sorted. Qed.

(** *** The serialization does not depend on iteration order *)

#[local] Instance keyLe_total : Total keyLe.
Proof.
  intros a b. unfold keyLe. rewrite (scompare_antisym b.1 a.1).
  destruct (String_as_OT.compare a.1 b.1); cbn; naive_solver.
Qed.

#[local] Instance keyLe_trans : Transitive keyLe.
Proof.
  intros a b c. unfold keyLe.
  destruct (String_as_OT.compare a.1 b.1) eqn:Hab; [| |done];
  destruct (String_as_OT.compare b.1 c.1) eqn:Hbc; try done; intros _ _.
  - apply scompare_eq in Hab, Hbc. rewrite Hab, Hbc.
    by rewrite (proj2 (scompare_eq _ _) eq_refl).
  - apply scompare_eq in Hab. by rewrite Hab, Hbc.
  - apply scompare_eq in Hbc. by rewrite <-Hbc, Hab.
  - by rewrite (scompare_lt_trans _ _ _ Hab Hbc).
Qed.

Lemma keyLe_antisym (a b : string * list byte) :
  keyLe a b → keyLe b a → a.1 = b.1.
Proof.
  unfold keyLe. rewrite (scompare_antisym b.1 a.1).
  destruct (String_as_OT.compare a.1 b.1) eqn:Hab; cbn; try done.
  intros _ _. by apply scompare_eq.
Qed.

Lemma NoDup_fst_inj {A B} (l : list (A * B)) (x y : A * B) :
  NoDup l.*1 → x ∈ l → y ∈ l → x.1 = y.1 → x = y.
Proof.
  induction l as [|z l IH]; cbn; [by intros _ ?%elem_of_nil|].
  intros [Hz Hl]%NoDup_cons [->|Hx]%elem_of_cons [->|Hy]%elem_of_cons Hxy; try done.
  - destruct Hz. rewrite Hxy. by apply list_elem_of_fmap_2.
  - destruct Hz. rewrite <-Hxy. by apply list_elem_of_fmap_2.
  - by apply IH.
Qed.

Lemma sortByKey_permutation (c c' : Content) :
  NoDup c.*1 → c ≡ₚ c' → sortByKey c = sortByKey c'.
Proof.
  intros Hnd Hp. unfold sortByKey.
  apply (Sorted_unique_strong keyLe).
  - intros x y Hx Hy Hxy Hyx.
    rewrite merge_sort_Permutation in Hx, Hy. rewrite <-Hp in Hy.
    eapply NoDup_fst_inj; eauto using keyLe_antisym.
  - apply Sorted_merge_sort, _.
  - apply Sorted_merge_sort, _.
  - by rewrite !merge_sort_Permutation.
Qed.

Section FingerprintFacts.
Context {encoding : Encoding}.

Lemma serialize_permutation (c c' : Content) :
  NoDup c.*1 → c ≡ₚ c' → serialize c = serialize c'.
Proof. intros. unfold serialize. by rewrite (sortByKey_permutation c c'). Qed.

Lemma stream_sameFetched (refs : list Reference) (f f' : Fetched) :
  sameFetched f f' → stream refs f = stream refs f'.
Proof.
  intros Hf. induction refs as [|r refs IH]; cbn; [done|].
  specialize (Hf (refId r)). rewrite IH.
  destruct (lookupFetched (refId r) f) as [c|],
           (lookupFetched (refId r) f') as [c'|]; try done.
  destruct Hf as [Hnd Hp].
  change (merge_sort keyLe c) with (sortByKey c).
  by rewrite (sortByKey_permutation c c').
Qed.
End FingerprintFacts.

Lemma lookupFetched_Some (id : Identity) (c : Content) (f : Fetched) :
  NoDup f.*1 → lookupFetched id f = Some c ↔ (id, c) ∈ f.
Proof.
  induction f as [|[i d] f IH]; cbn.
  - intros _. split; [done|]. by intros ?%elem_of_nil.
  - intros [Hi Hf]%NoDup_cons. case_decide as Hid; subst.
    + split; [intros [= ->]; left|].
      intros [[= ->]|Hin]%elem_of_cons; [done|].
      destruct Hi. by apply (list_elem_of_fmap_2 fst) in Hin.
    + rewrite IH by done. split; [by right|].
      intros [[= -> ->]|Hin]%elem_of_cons; done.
Qed.

Lemma lookupFetched_None (id : Identity) (f : Fetched) :
  lookupFetched id f = None ↔ id ∉ f.*1.
Proof.
  induction f as [|[i d] f IH]; cbn.
  - split; [|done]. intros _. apply not_elem_of_nil.
  - case_decide as Hid; subst.
    + split; [done|]. intros []. left.
    + rewrite IH, not_elem_of_cons. split; [by intros; split|by intros [_ ?]].
Qed.

(** Reordering the fetch results, and reordering the pairs inside each of
    them, gives fetch results with the same contents. *)
Lemma reordered_sameFetched (f g f' : Fetched) :
  NoDup f.*1 → Forall (λ e, NoDup e.2.*1) f →
  f ≡ₚ g → Forall2 (λ e e', e.1 = e'.1 ∧ e.2 ≡ₚ e'.2) g f' →
  sameFetched f f'.
Proof.
  intros Hnd Hc Hp Hg id.
  assert (NoDup g.*1) as Hndg by by rewrite <-Hp.
  assert (g.*1 = f'.*1) as Hids.
  { clear -Hg. induction Hg as [|e e' g f' [He _] _ IH]; cbn; [done|]. by f_equal. }
  assert (NoDup f'.*1) as Hnd' by by rewrite <-Hids.
  destruct (lookupFetched id f) as [c|] eqn:Hl.
  - apply lookupFetched_Some in Hl; [|done].
    assert (NoDup c.*1) as Hcnd.
    { rewrite Forall_forall in Hc. apply (Hc _ Hl). }
    rewrite Hp in Hl.
    apply list_elem_of_lookup in Hl as [i Hi].
    destruct (Forall2_lookup_l _ _ _ _ _ Hg Hi) as ([id' c'] & Hi' & Hid & Hcc).
    cbn in Hid, Hcc. subst id'.
    assert (lookupFetched id f' = Some c') as ->.
    { apply lookupFetched_Some; [done|]. by eapply list_elem_of_lookup_2. }
    done.
  - apply lookupFetched_None in Hl.
    assert (lookupFetched id f' = None) as ->; [|done].
    apply lookupFetched_None. by rewrite <-Hids, <-Hp.
Qed.


(** ** Running computations *)

Lemma run_bind {W C A B} (m : M W C A) (f : A → M W C B) (w : W) :
  (m ≫= f) w
  = (result (f (result (m w)) (world (m w))),
     world (f (result (m w)) (world (m w))),
     trace (m w) ++ trace (f (result (m w)) (world (m w)))).
Proof.
  unfold mbind, M_bind, result, world, trace.
  destruct (m w) as [[a w1] t1]. cbn. by destruct (f a w1) as [[b w2] t2].
Qed.

Lemma run_ret {W C A} (a : A) (w : W) : (mret a : M W C A) w = (a, w, []).
Proof. done. Qed.

Lemma run_call {W C A} (c : C) (op : W → A * W) (w : W) :
  call c op w = ((op w).1, (op w).2, [c]).
Proof. unfold call. by destruct (op w). Qed.

(** ** The store *)

Lemma dependency_updateConfig ns id obj cur c :
  dependency c ns id = Some cur →
  metaResourceVersion (coMeta cur) = metaResourceVersion (coMeta obj) →
  ∃ c', updateConfig ns id obj c = (None, c')
    ∧ deployments c' = deployments c
    ∧ ∀ ns' id', dependency c' ns' id'
        = if decide (ns' = ns ∧ id' = id) then Some (stored obj)
          else dependency c ns' id'.
Proof.
  unfold dependency, updateConfig. intros -> Hv.
  rewrite decide_True by done. eexists. split; [done|]. split; [done|].
  intros ns' id'. cbn. destruct (decide (ns' = ns)) as [->|Hns].
  - rewrite lookup_total_insert_eq. destruct (decide (id' = id)) as [->|Hid].
    + rewrite lookup_insert_eq. by rewrite decide_True.
    + rewrite lookup_insert_ne by done. by rewrite decide_False by (by intros [_ ?]).
  - rewrite lookup_total_insert_ne by done. by rewrite decide_False by (by intros [? _]).
Qed.

Lemma applyMutation_spec ns o m c :
  deployments (world (applyMutation ns o m c)) = deployments c
  ∧ (∀ ns' id', dependency (world (applyMutation ns o m c)) ns' id'
       = if decide (ns' = ns ∧ id' = mutationId m)
         then patched o m <$> dependency c ns' id'
         else dependency c ns' id')
  ∧ result (applyMutation ns o m c)
    = match m, dependency c ns (mutationId m) with
      | AddEdge id, None => Some (MissingDependency id.1 id.2)
      | _, _ => None
      end.
Proof.
  assert (∀ id (dep : ConfigObject) (c0 : Cluster),
    dependency c0 ns id = Some dep →
    (∀ ns' id', dependency c0 ns' id'
       = if decide (ns' = ns ∧ id' = id) then Some dep else dependency c0 ns' id')) as Hsame.
  { intros id dep c0 Hd ns' id'. case_decide as Hk; [|done]. by destruct Hk as [-> ->]. }
  destruct m as [id|id]; cbn [applyMutation mutationId];
    rewrite run_bind, run_call; cbn [getConfig fst snd result world trace];
    fold (dependency c ns id);
    destruct (dependency c ns id) as [dep|] eqn:Hdep; cbn [result world trace fst snd].
  - destruct (hasEdgeTo o dep) eqn:He.
    + destruct (dependency_updateConfig ns id (removeEdge o dep) dep c Hdep eq_refl)
        as (c' & Hup & Hdeps & Hcfg).
      rewrite run_call, Hup. cbn. repeat split; [done|].
      intros ns' id'. rewrite Hcfg. case_decide as Hk; [|done].
      destruct Hk as [-> ->]. rewrite Hdep; cbn; by rewrite He.
    + cbn. repeat split. intros ns' id'. case_decide as Hk; [|done].
      destruct Hk as [-> ->]. rewrite Hdep; cbn; by rewrite He.
  - cbn. repeat split. intros ns' id'. case_decide as Hk; [|done].
    destruct Hk as [-> ->]. by rewrite Hdep.
  - destruct (hasEdgeTo o dep) eqn:He.
    + cbn. repeat split. intros ns' id'. case_decide as Hk; [|done].
      destruct Hk as [-> ->]. rewrite Hdep; cbn; by rewrite He.
    + destruct (dependency_updateConfig ns id (addEdge o dep) dep c Hdep eq_refl)
        as (c' & Hup & Hdeps & Hcfg).
      rewrite run_call, Hup. cbn. repeat split; [done|].
      intros ns' id'. rewrite Hcfg. case_decide as Hk; [|done].
      destruct Hk as [-> ->]. rewrite Hdep; cbn; by rewrite He.
  - cbn. repeat split. intros ns' id'. case_decide as Hk; [|done].
    destruct Hk as [-> ->]. by rewrite Hdep.
Qed.

Lemma applyMutations_deployments ns o ms c :
  deployments (world (applyMutations ns o ms c)) = deployments c.
Proof.
  revert c. induction ms as [|m ms IH]; intros c; cbn [applyMutations]; [done|].
  rewrite run_bind, run_bind, run_ret. cbn [world fst snd].
  rewrite IH. apply applyMutation_spec.
Qed.

Lemma applyMutations_other ns o ms c ns' id' :
  ns' ≠ ns ∨ id' ∉ mutationId <$> ms →
  dependency (world (applyMutations ns o ms c)) ns' id' = dependency c ns' id'.
Proof.
  revert c. induction ms as [|m ms IH]; intros c Hout; cbn [applyMutations]; [done|].
  rewrite run_bind, run_bind, run_ret. cbn [world fst snd].
  rewrite IH.
  - destruct (applyMutation_spec ns o m c) as (_ & -> & _).
    rewrite decide_False; [done|]. intros [-> ->]. destruct Hout as [|Hout]; [done|].
    apply Hout. cbn. left.
  - destruct Hout as [|Hout]; [by left|]. right. intros Hin. apply Hout. cbn. by right.
Qed.

Lemma applyMutations_target ns o ms c m :
  NoDup (mutationId <$> ms) → m ∈ ms →
  dependency (world (applyMutations ns o ms c)) ns (mutationId m)
  = patched o m <$> dependency c ns (mutationId m).
Proof.
  revert c. induction ms as [|m0 ms IH]; intros c Hnd Hin; [by apply elem_of_nil in Hin|].
  cbn in Hnd. apply NoDup_cons in Hnd as [Hm0 Hnd]. cbn [applyMutations].
  rewrite run_bind, run_bind, run_ret. cbn [world fst snd].
  destruct (applyMutation_spec ns o m0 c) as (_ & Hdep & _).
  apply elem_of_cons in Hin as [->|Hin].
  - rewrite applyMutations_other by (by right).
    rewrite Hdep. by rewrite decide_True.
  - rewrite IH by done. rewrite Hdep. rewrite decide_False; [done|].
    intros [_ Heq]. apply Hm0. rewrite <-Heq. by apply list_elem_of_fmap_2.
Qed.

Lemma patched_data o m dep : coData (patched o m dep) = coData dep.
Proof. destruct m; cbn; by destruct (hasEdgeTo o dep). Qed.

(** Mutations neither create nor delete a Dependency, and leave its
    content alone. *)
Lemma applyMutation_data ns o m c ns' id' :
  coData <$> dependency (world (applyMutation ns o m c)) ns' id'
  = coData <$> dependency c ns' id'.
Proof.
  destruct (applyMutation_spec ns o m c) as (_ & -> & _).
  case_decide; [|done]. destruct (dependency c ns' id'); cbn; [|done].
  by rewrite patched_data.
Qed.

Lemma applyMutations_data ns o ms c ns' id' :
  coData <$> dependency (world (applyMutations ns o ms c)) ns' id'
  = coData <$> dependency c ns' id'.
Proof.
  revert c. induction ms as [|m ms IH]; intros c; cbn [applyMutations]; [done|].
  rewrite run_bind, run_bind, run_ret. cbn [world fst snd].
  by rewrite IH, applyMutation_data.
Qed.

Lemma applyMutations_ok ns o ms c :
  (∀ id, AddEdge id ∈ ms → is_Some (dependency c ns id)) →
  result (applyMutations ns o ms c) = [].
Proof.
  revert c. induction ms as [|m ms IH]; intros c Hok; cbn [applyMutations]; [done|].
  rewrite run_bind, run_bind, run_ret. cbn [result world fst snd].
  destruct (applyMutation_spec ns o m c) as (_ & _ & ->).
  rewrite IH.
  - destruct m as [id|id]; cbn [mutationId]; [by destruct (dependency c ns id)|].
    destruct (Hok id) as [dep ->]; [left|done].
  - intros id Hin.
    pose proof (applyMutation_data ns o m c ns id) as Hd.
    destruct (Hok id) as [dep Hdep]; [by right|]. rewrite Hdep in Hd.
    destruct (dependency (world (applyMutation ns o m c)) ns id); [done|discriminate].
Qed.

(** ** The mutations computed by [Sync] *)

Lemma Sync_unfold (o : Owner) (desired : list Reference)
    (current : gmap Identity ConfigObject) :
  Sync o desired current
  = (((λ p : Identity * ConfigObject, RemoveEdge p.1)
        <$> filter (λ p, hasEdgeTo o p.2 = true ∧ p.1 ∉ refId <$> desired)
                   (map_to_list current))
     ++ omap (λ s, match s with inl m => Some m | inr _ => None end)
             (desired ≫= desiredStep o current),
     omap (λ s, match s with inr e => Some e | inl _ => None end)
          (desired ≫= desiredStep o current)).
Proof. done. Qed.

Lemma additions_elem (o : Owner) (current : gmap Identity ConfigObject)
    (desired : list Reference) (m : Mutation) :
  m ∈ omap (λ s : Mutation + error, match s with inl m => Some m | inr _ => None end)
           (desired ≫= desiredStep o current)
  ↔ ∃ r dep, r ∈ desired ∧ m = AddEdge (refId r)
             ∧ current !! refId r = Some dep ∧ hasEdgeTo o dep = false.
Proof.
  rewrite list_elem_of_omap. split.
  - intros (s & Hs & Hm). apply list_elem_of_bind in Hs as (r & Hs & Hr).
    unfold desiredStep in Hs.
    destruct (current !! refId r) as [dep|] eqn:Hc.
    + destruct (hasEdgeTo o dep) eqn:He; [by apply elem_of_nil in Hs|].
      apply list_elem_of_singleton in Hs as ->. injection Hm as <-. eauto 10.
    + destruct (rRequired r); [|by apply elem_of_nil in Hs].
      by apply list_elem_of_singleton in Hs as ->.
  - intros (r & dep & Hr & -> & Hc & He). exists (inl (AddEdge (refId r))).
    split; [|done]. apply list_elem_of_bind. exists r. split; [|done].
    unfold desiredStep. rewrite Hc, He. left.
Qed.

Lemma removals_elem (o : Owner) (current : gmap Identity ConfigObject)
    (desired : list Reference) (m : Mutation) :
  m ∈ (λ p : Identity * ConfigObject, RemoveEdge p.1)
        <$> filter (λ p, hasEdgeTo o p.2 = true ∧ p.1 ∉ refId <$> desired)
                   (map_to_list current)
  ↔ ∃ id dep, m = RemoveEdge id ∧ current !! id = Some dep
              ∧ hasEdgeTo o dep = true ∧ id ∉ refId <$> desired.
Proof.
  rewrite list_elem_of_fmap. split.
  - intros ([id dep] & -> & Hin). apply list_elem_of_filter in Hin as [[He Hd] Hin].
    apply elem_of_map_to_list in Hin. eauto 10.
  - intros (id & dep & -> & Hc & He & Hd). exists (id, dep). split; [done|].
    apply list_elem_of_filter. split; [done|]. by apply elem_of_map_to_list.
Qed.

Lemma Sync_mutations_elem (o : Owner) (desired : list Reference)
    (current : gmap Identity ConfigObject) (m : Mutation) :
  m ∈ (Sync o desired current).1 ↔
    (∃ id dep, m = RemoveEdge id ∧ current !! id = Some dep
               ∧ hasEdgeTo o dep = true ∧ id ∉ refId <$> desired)
    ∨ (∃ r dep, r ∈ desired ∧ m = AddEdge (refId r)
                ∧ current !! refId r = Some dep ∧ hasEdgeTo o dep = false).
Proof.
  rewrite Sync_unfold. cbn [fst]. rewrite elem_of_app.
  by rewrite removals_elem, additions_elem.
Qed.

Lemma additions_ids (o : Owner) (current : gmap Identity ConfigObject)
    (desired : list Reference) :
  mutationId <$> omap (λ s : Mutation + error,
                         match s with inl m => Some m | inr _ => None end)
                      (desired ≫= desiredStep o current)
  `sublist_of` refId <$> desired.
Proof.
  induction desired as [|r desired IH]; cbn; [done|].
  rewrite omap_app, fmap_app. unfold desiredStep at 1.
  destruct (current !! refId r) as [dep|].
  - destruct (hasEdgeTo o dep); cbn; [by apply sublist_cons|by apply sublist_skip].
  - destruct (rRequired r); cbn; by apply sublist_cons.
Qed.

Lemma Sync_mutations_NoDup (o : Owner) (desired : list Reference)
    (current : gmap Identity ConfigObject) :
  NoDup (refId <$> desired) → NoDup (mutationId <$> (Sync o desired current).1).
Proof.
  intros Hnd. rewrite Sync_unfold. cbn [fst]. rewrite fmap_app.
  apply NoDup_app. split; [|split].
  - rewrite <-list_fmap_compose.
    apply (sublist_NoDup _ ((map_to_list current).*1));
      [apply NoDup_fst_map_to_list|].
    apply fmap_sublist, sublist_filter.
  - intros id Hrem Hadd.
    apply list_elem_of_fmap in Hrem as (m & -> & Hrem).
    apply removals_elem in Hrem as (id & dep & -> & _ & _ & Hout).
    apply Hout. eapply elem_of_sublist; [done|apply additions_ids].
  - eapply sublist_NoDup; [done|apply additions_ids].
Qed.

Lemma Sync_errors_nil (o : Owner) (desired : list Reference)
    (current : gmap Identity ConfigObject) :
  (∀ r, r ∈ desired → rRequired r = true → is_Some (current !! refId r)) →
  (Sync o desired current).2 = [].
Proof.
  intros Hok. rewrite Sync_unfold. cbn [snd].
  induction desired as [|r desired IH]; cbn; [done|].
  rewrite omap_app, IH by (intros; apply Hok; [by right|done]).
  unfold desiredStep. destruct (current !! refId r) as [dep|] eqn:Hc.
  - by destruct (hasEdgeTo o dep).
  - destruct (rRequired r) eqn:Hr; [|done].
    destruct (Hok r) as [? ?]; [left|done|congruence].
Qed.

(** ** Edges after a patch *)

Lemma hasEdgeTo_stored o dep : hasEdgeTo o (stored dep) = hasEdgeTo o dep.
Proof. done. Qed.

Lemma hasEdgeTo_addEdge o dep : hasEdgeTo o (addEdge o dep) = true.
Proof.
  unfold hasEdgeTo, addEdge. cbn. rewrite existsb_app. cbn.
  unfold pointsAt. cbn. rewrite !bool_decide_eq_true_2 by done.
  by rewrite orb_true_r.
Qed.

Lemma hasEdgeTo_removeEdge o dep : hasEdgeTo o (removeEdge o dep) = false.
Proof.
  unfold hasEdgeTo, removeEdge. cbn.
  induction (metaOwnerReferences (coMeta dep)) as [|ref refs IH]; [done|].
  rewrite filter_cons. destruct (decide (pointsAt o ref = false)) as [Hp|Hp]; [|done].
  cbn. by rewrite Hp, IH.
Qed.

Lemma writes_app t1 t2 : writes (t1 ++ t2) = writes t1 ++ writes t2.
Proof. apply filter_app. Qed.


(** ** Fetching *)

Ltac run_simpl := cbn [getConfig listConfigs recordEvent result world trace fst snd].

Lemma fetch_reads ns refs c :
  world (fetchDependencies ns refs c) = c
  ∧ writes (trace (fetchDependencies ns refs c)) = [].
Proof.
  induction refs as [|r refs [IHw IHt]]; cbn [fetchDependencies];
    [rewrite run_ret; by cbn|].
  rewrite run_bind, run_call. run_simpl.
  destruct ((configs c !!! ns) !! refId r) as [d|], (rRequired r);
    rewrite ?run_bind, ?run_ret; run_simpl; rewrite ?IHw; try done.
  all: destruct (result (fetchDependencies ns refs c));
       rewrite ?run_ret; run_simpl;
       (split; [done|]); rewrite !writes_app, IHt; done.
Qed.

Lemma fetch_result ns refs c :
  match result (fetchDependencies ns refs c) with
  | inr e => ∃ r, r ∈ refs ∧ rRequired r = true
                  ∧ dependency c ns (refId r) = None
                  ∧ e = MissingDependency (rKind r) (rName r)
  | inl f => (∀ r, r ∈ refs → rRequired r = true →
                   is_Some (dependency c ns (refId r)))
             ∧ ∀ id, lookupFetched id f
                     = if decide (id ∈ refId <$> refs)
                       then (λ d, map_to_list (coData d)) <$> dependency c ns id
                       else None
  end.
Proof.
  induction refs as [|r refs IH]; cbn [fetchDependencies].
  { rewrite run_ret. cbn. split; [by intros ? ?%elem_of_nil|]. intros id.
    by rewrite decide_False by apply not_elem_of_nil. }
  rewrite run_bind, run_call. run_simpl.
  fold (dependency c ns (refId r)).
  destruct (dependency c ns (refId r)) as [d|] eqn:Hd, (rRequired r) eqn:Hr;
    rewrite ?run_bind, ?run_ret; run_simpl.
  3:{ exists r. repeat split; [left|done..]. }
  all: rewrite (proj1 (fetch_reads ns refs c)).
  all: destruct (result (fetchDependencies ns refs c)) as [f|e];
       rewrite run_ret; run_simpl.
  all: try (destruct IH as (r' & ? & ? & ? & ?); exists r';
            repeat split; [by right|done..]).
  all: destruct IH as [IHp IHl]; split.
  all: try (intros r' [->|Hin]%elem_of_cons Hreq;
            [by rewrite ?Hd; eauto; congruence|by apply IHp]).
  all: intros id; cbn [lookupFetched fmap list_fmap]; rewrite ?IHl.
  all: repeat case_decide; subst; try done.
  all: try (rewrite Hd; done).
  all: repeat match goal with
              | H : _ ∉ _ :: _ |- _ => apply not_elem_of_cons in H as [? ?]
              | H : _ ∈ _ :: _ |- _ => apply elem_of_cons in H as [?|?]
              end; subst; try done.
  all: by rewrite Hd.
Qed.

(** The fetch reads contents only: clusters that agree on the content of
    every Dependency give the same fetch result. *)
Lemma fetch_result_ext ns refs c c' :
  (∀ id, coData <$> dependency c ns id = coData <$> dependency c' ns id) →
  result (fetchDependencies ns refs c) = result (fetchDependencies ns refs c').
Proof.
  intros Hd. induction refs as [|r refs IH]; cbn [fetchDependencies]; [done|].
  rewrite !run_bind, !run_call. run_simpl.
  specialize (Hd (refId r)). unfold dependency in Hd.
  destruct ((configs c !!! ns) !! refId r) as [d|],
           ((configs c' !!! ns) !! refId r) as [d'|]; try discriminate Hd;
    destruct (rRequired r); try done.
  all: rewrite !run_bind; run_simpl; rewrite !(proj1 (fetch_reads _ _ _)), IH.
  all: destruct (result (fetchDependencies ns refs c')); rewrite !run_ret; run_simpl;
       try done.
  all: by injection Hd as ->.
Qed.

(** ** The fingerprint stream *)

Section Orchestrator.
Context {encoding : Encoding}.

Lemma lenientStream_cons r refs f :
  lenientStream (r :: refs) f
  = encodeIdentity (refId r)
    ++ serialize (default [] (lookupFetched (refId r) f)) ++ lenientStream refs f.
Proof. unfold lenientStream. rewrite bind_cons. by rewrite <-(assoc_L (++)). Qed.

Lemma stream_present refs f :
  (∀ r, r ∈ refs → rRequired r = true → is_Some (lookupFetched (refId r) f)) →
  stream refs f = inl (lenientStream refs f).
Proof.
  induction refs as [|r refs IH]; intros Hok; cbn [stream]; [done|].
  rewrite IH by (intros; apply Hok; [by right|done]).
  rewrite lenientStream_cons.
  destruct (lookupFetched (refId r) f) as [c|] eqn:Hl; [done|].
  destruct (rRequired r) eqn:Hr; [|done].
  destruct (Hok r) as [? ?]; [left|done|congruence].
Qed.

Lemma stream_missing refs f r :
  r ∈ refs → rRequired r = true → lookupFetched (refId r) f = None →
  ∃ r', r' ∈ refs ∧ rRequired r' = true ∧ lookupFetched (refId r') f = None
        ∧ stream refs f = inr (MissingDependency (rKind r') (rName r')).
Proof.
  induction refs as [|x refs IH]; intros Hin Hr Hl; [by apply elem_of_nil in Hin|].
  cbn [stream].
  destruct (lookupFetched (refId x) f) as [c|] eqn:Hx.
  - apply elem_of_cons in Hin as [->|Hin]; [congruence|].
    destruct (IH Hin Hr Hl) as (r' & ? & ? & ? & ->).
    exists r'. repeat split; [by right|done..|]. by destruct (rRequired x).
  - destruct (rRequired x) eqn:Hxr.
    + exists x. repeat split; [left|done..].
    + apply elem_of_cons in Hin as [->|Hin]; [congruence|].
      destruct (IH Hin Hr Hl) as (r' & ? & ? & ? & ->).
      exists r'. repeat split; [by right|done..].
Qed.

(** *** One run of [HandleDeployment], step by step *)

Lemma run_event (etype : EventType) (d : PodController) (reason : string) (c : Cluster) :
  event etype d reason c
  = (tt, c, [ReqEvent etype (metaNamespace (pcMeta d)) (metaName (pcMeta d)) reason]).
Proof. done. Qed.

Lemma handle_fetch_failed (inst : PodController) (c : Cluster) (e : error) :
  result (fetchDependencies (metaNamespace (pcMeta inst))
                            (Extract (pcTemplate inst)) c) = inr e →
  HandleDeployment inst c
  = ((emptyResult, Some e), c,
     trace (fetchDependencies (metaNamespace (pcMeta inst))
                              (Extract (pcTemplate inst)) c)
     ++ [ReqEvent EventWarning (metaNamespace (pcMeta inst))
                  (metaName (pcMeta inst)) "MissingDependency"]).
Proof.
  intros HF. unfold HandleDeployment. rewrite run_bind, HF.
  rewrite (proj1 (fetch_reads _ _ _)).
  rewrite run_bind, run_event, run_ret. run_simpl. by rewrite app_nil_r.
Qed.

Lemma handle_fingerprint_failed (inst : PodController) (c : Cluster) f (e : error) :
  result (fetchDependencies (metaNamespace (pcMeta inst))
                            (Extract (pcTemplate inst)) c) = inl f →
  Fingerprint (Extract (pcTemplate inst)) f = inr e →
  HandleDeployment inst c
  = ((emptyResult, Some e), c,
     trace (fetchDependencies (metaNamespace (pcMeta inst))
                              (Extract (pcTemplate inst)) c)
     ++ [ReqEvent EventWarning (metaNamespace (pcMeta inst))
                  (metaName (pcMeta inst)) "MissingDependency"]).
Proof.
  intros HF HP. unfold HandleDeployment. rewrite run_bind, HF.
  rewrite (proj1 (fetch_reads _ _ _)), HP.
  rewrite run_bind, run_event, run_ret. run_simpl. by rewrite app_nil_r.
Qed.

Lemma handle_fingerprinted (inst : PodController) (c : Cluster) f (h : string) :
  result (fetchDependencies (metaNamespace (pcMeta inst))
                            (Extract (pcTemplate inst)) c) = inl f →
  Fingerprint (Extract (pcTemplate inst)) f = inl h →
  result (ownerStep inst h c) = None →
  let ns := metaNamespace (pcMeta inst) in
  let o : Owner := (Deployment, metaName (pcMeta inst)) in
  let c' := world (ownerStep inst h c) in
  let S := Sync o (Extract (pcTemplate inst)) (configs c' !!! ns) in
  let A := applyMutations ns o S.1 c' in
  result (HandleDeployment inst c)
    = (emptyResult, head (S.2 ++ result A))
  ∧ world (HandleDeployment inst c) = world A
  ∧ writes (trace (HandleDeployment inst c))
    = writes (trace (ownerStep inst h c)) ++ writes (trace A).
Proof.
  intros HF HP HU ns o c' S A. unfold HandleDeployment.
  rewrite run_bind, HF. rewrite (proj1 (fetch_reads _ _ _)), HP.
  rewrite run_bind. fold ns o.
  assert ((if bool_decide (storedHash inst ≠ Some h)
           then call (ReqUpdateDeployment (setConfigHash h inst))
                     (updateDeployment (setConfigHash h inst))
           else mret None) c = ownerStep inst h c) as ->.
  { unfold ownerStep. by destruct (bool_decide _). }
  run_simpl. rewrite HU. fold c'.
  rewrite run_bind, run_call. run_simpl. rewrite run_bind. fold S A. run_simpl.
  destruct (S.2 ++ result A) as [|e es]; rewrite run_bind, run_event, run_ret; run_simpl.
  all: repeat split; try done.
  all: rewrite !writes_app, (proj2 (fetch_reads _ _ _)); cbn.
  all: by rewrite !app_nil_r.
Qed.

Lemma ownerStep_fresh (inst d : PodController) (h : string) (c : Cluster) :
  deployments c !! (metaNamespace (pcMeta inst), metaName (pcMeta inst)) = Some d →
  metaResourceVersion (pcMeta d) = metaResourceVersion (pcMeta inst) →
  result (ownerStep inst h c) = None
  ∧ configs (world (ownerStep inst h c)) = configs c
  ∧ deployments (world (ownerStep inst h c))
    = if bool_decide (storedHash inst ≠ Some h)
      then <[(metaNamespace (pcMeta inst), metaName (pcMeta inst))
             := mkPodController (nextVersion (pcMeta inst))
                                (pcTemplate (setConfigHash h inst))]> (deployments c)
      else deployments c.
Proof.
  intros Hd Hv. unfold ownerStep. destruct (bool_decide _); [|done].
  rewrite run_call. unfold updateDeployment. cbn [setConfigHash pcMeta].
  rewrite Hd, decide_True by done. done.
Qed.

(** *** Ownership after the mutations of [Sync] have been applied *)

Lemma sync_closure (ns : string) (o : Owner) (refs : list Reference) (c : Cluster)
    (id : Identity) (dep : ConfigObject) :
  NoDup (refId <$> refs) →
  dependency (world (applyMutations ns o (Sync o refs (configs c !!! ns)).1 c)) ns id
    = Some dep →
  hasEdgeTo o dep = true ↔ id ∈ refId <$> refs.
Proof.
  intros Hnd Hdep.
  set (ms := (Sync o refs (configs c !!! ns)).1) in *.
  assert (NoDup (mutationId <$> ms)) as Hms by by apply Sync_mutations_NoDup.
  destruct (dependency c ns id) as [old|] eqn:Hold.
  2:{ pose proof (applyMutations_data ns o ms c ns id) as Hdata.
      by rewrite Hdep, Hold in Hdata. }
  destruct (decide (id ∈ refId <$> refs)) as [Hin|Hout];
    destruct (hasEdgeTo o old) eqn:He.
  - (* desired, already backed by an edge: untouched *)
    rewrite applyMutations_other in Hdep.
    + rewrite Hold in Hdep. injection Hdep as <-. by rewrite He.
    + right. intros (m & Hid & Hm)%list_elem_of_fmap.
      apply Sync_mutations_elem in Hm
        as [(id' & dep' & -> & Hc & He' & Hout)|(r & dep' & Hr & -> & Hc & He')];
        cbn in Hid; subst.
      * done.
      * unfold dependency in Hold. congruence.
  - (* desired, no edge yet: added *)
    apply list_elem_of_fmap in Hin as (r & -> & Hr).
    assert (AddEdge (refId r) ∈ ms) as Hm.
    { apply Sync_mutations_elem. right. by exists r, old. }
    pose proof (applyMutations_target ns o ms c _ Hms Hm) as Ht.
    cbn [mutationId] in Ht. rewrite Ht, Hold in Hdep. cbn in Hdep. rewrite He in Hdep.
    injection Hdep as <-. rewrite hasEdgeTo_stored, hasEdgeTo_addEdge.
    split; [|done]. intros _. by apply list_elem_of_fmap_2.
  - (* not desired, edge present: removed *)
    assert (RemoveEdge id ∈ ms) as Hm.
    { apply Sync_mutations_elem. left. by exists id, old. }
    pose proof (applyMutations_target ns o ms c _ Hms Hm) as Ht.
    cbn [mutationId] in Ht. rewrite Ht, Hold in Hdep. cbn in Hdep. rewrite He in Hdep.
    injection Hdep as <-. by rewrite hasEdgeTo_stored, hasEdgeTo_removeEdge.
  - (* not desired, no edge: untouched *)
    rewrite applyMutations_other in Hdep.
    + rewrite Hold in Hdep. injection Hdep as <-. by rewrite He.
    + right. intros (m & Hid & Hm)%list_elem_of_fmap.
      apply Sync_mutations_elem in Hm
        as [(id' & dep' & -> & Hc & He' & Hout')|(r & dep' & Hr & -> & Hc & He')];
        cbn in Hid; subst.
      * unfold dependency in Hold. congruence.
      * apply Hout. by apply list_elem_of_fmap_2.
Qed.

(** In a cluster where the edges to the Owner are exactly on the desired
    Dependencies, [Sync] has nothing to do. *)
Lemma Sync_converged (o : Owner) (refs : list Reference)
    (current : gmap Identity ConfigObject) :
  (∀ id dep, current !! id = Some dep →
             hasEdgeTo o dep = true ↔ id ∈ refId <$> refs) →
  (Sync o refs current).1 = [].
Proof.
  intros Hcl. apply elem_of_nil_inv. intros m Hm.
  apply Sync_mutations_elem in Hm
    as [(id & dep & -> & Hc & He & Hout)|(r & dep & Hr & -> & Hc & He)].
  - apply Hout. by apply (Hcl id dep).
  - assert (hasEdgeTo o dep = true); [|congruence].
    apply (Hcl (refId r) dep); [done|]. by apply list_elem_of_fmap_2.
Qed.

(** *** The orchestrator as run by the controller *)

Lemma Orchestrate_not_found (request : Request) (c : Cluster) :
  deployments c !! (Namespace (requestNamespacedName request),
                    Name (requestNamespacedName request)) = None →
  Orchestrate request c
  = ((emptyResult, None), c,
     [ReqGetDeployment (Namespace (requestNamespacedName request))
                       (Name (requestNamespacedName request))]).
Proof.
  intros Hd. unfold Orchestrate, deployment.Reconcile.
  rewrite run_bind, run_call. cbn [deployment.Get handler]. unfold serve.
  rewrite run_bind, run_call. unfold getDeployment. cbn [cluster]. rewrite Hd.
  done.
Qed.

Lemma Orchestrate_found (request : Request) (c : Cluster) (d : PodController) :
  deployments c !! (Namespace (requestNamespacedName request),
                    Name (requestNamespacedName request)) = Some d →
  Orchestrate request c
  = (result (HandleDeployment (servedInstance request d) c),
     world (HandleDeployment (servedInstance request d) c),
     ReqGetDeployment (Namespace (requestNamespacedName request))
                      (Name (requestNamespacedName request))
     :: trace (HandleDeployment (servedInstance request d) c)).
Proof.
  intros Hd. unfold Orchestrate, deployment.Reconcile.
  rewrite run_bind, run_call. cbn [deployment.Get handler]. unfold serve.
  rewrite run_bind, run_call. unfold getDeployment. cbn [cluster]. rewrite Hd.
  rewrite run_ret. run_simpl. fold (servedInstance request d).
  rewrite run_call. cbn [deployment.HandleDeployment handler]. unfold serve.
  cbn [cluster served].
  destruct (HandleDeployment (servedInstance request d) c) as [[r c'] t].
  done.
Qed.

Lemma handle_missing (inst : PodController) (c : Cluster) (r : Reference) :
  r ∈ Extract (pcTemplate inst) → rRequired r = true →
  dependency c (metaNamespace (pcMeta inst)) (refId r) = None →
  ∃ r', r' ∈ Extract (pcTemplate inst) ∧ rRequired r' = true
        ∧ dependency c (metaNamespace (pcMeta inst)) (refId r') = None
        ∧ HandleDeployment inst c
          = ((emptyResult, Some (MissingDependency (rKind r') (rName r'))), c,
             trace (fetchDependencies (metaNamespace (pcMeta inst))
                                      (Extract (pcTemplate inst)) c)
             ++ [ReqEvent EventWarning (metaNamespace (pcMeta inst))
                          (metaName (pcMeta inst)) "MissingDependency"]).
Proof.
  intros Hin Hr Hnone.
  pose proof (fetch_result (metaNamespace (pcMeta inst)) (Extract (pcTemplate inst)) c)
    as HF.
  destruct (result (fetchDependencies _ _ c)) as [f|e] eqn:HR.
  - destruct HF as [Hp _]. destruct (Hp r Hin Hr) as [? ?]. congruence.
  - destruct HF as (r' & ? & ? & ? & ->). exists r'. repeat split; [done..|].
    by apply handle_fetch_failed.
Qed.

(** The facts established by a run in which no required Dependency is
    missing. *)
Lemma handle_present (inst d : PodController) (c : Cluster) :
  deployments c !! (metaNamespace (pcMeta inst), metaName (pcMeta inst)) = Some d →
  metaResourceVersion (pcMeta d) = metaResourceVersion (pcMeta inst) →
  (∀ r, r ∈ Extract (pcTemplate inst) → rRequired r = true →
        is_Some (dependency c (metaNamespace (pcMeta inst)) (refId r))) →
  let ns := metaNamespace (pcMeta inst) in
  let o : Owner := (Deployment, metaName (pcMeta inst)) in
  let refs := Extract (pcTemplate inst) in
  let c1 := world (HandleDeployment inst c) in
  ∃ f h,
    result (fetchDependencies ns refs c) = inl f
    ∧ Fingerprint refs f = inl h
    ∧ result (HandleDeployment inst c) = (emptyResult, None)
    ∧ deployments c1
      = (if bool_decide (storedHash inst ≠ Some h)
         then <[(ns, metaName (pcMeta inst))
                := mkPodController (nextVersion (pcMeta inst))
                                   (pcTemplate (setConfigHash h inst))]> (deployments c)
         else deployments c)
    ∧ (∀ ns' id, coData <$> dependency c1 ns' id = coData <$> dependency c ns' id)
    ∧ (∀ id dep, dependency c1 ns id = Some dep →
                 hasEdgeTo o dep = true ↔ id ∈ refId <$> refs).
Proof.
  intros Hd Hv Hp ns o refs c1.
  pose proof (fetch_result ns refs c) as HF.
  destruct (result (fetchDependencies ns refs c)) as [f|e] eqn:HR.
  2:{ destruct HF as (r & Hin & Hr & Hnone & _).
      destruct (Hp r Hin Hr) as [x Hx]. unfold ns in Hnone. congruence. }
  destruct HF as [_ Hl].
  assert (Fingerprint refs f = inl (digest (lenientStream refs f))) as HP.
  { unfold Fingerprint. rewrite stream_present; [done|].
    intros r Hin Hr. rewrite Hl, decide_True by (by apply list_elem_of_fmap_2).
    destruct (Hp r Hin Hr) as [dep Hdep]. fold ns in Hdep. rewrite Hdep.
    by eexists. }
  destruct (ownerStep_fresh inst d (digest (lenientStream refs f)) c Hd Hv)
    as (HU & Hcfg & Hdeps).
  destruct (handle_fingerprinted inst c f _ HR HP HU) as (Hres & Hworld & _).
  fold ns o refs c1 in Hres, Hworld.
  set (c' := world (ownerStep inst (digest (lenientStream refs f)) c)) in *.
  assert (∀ ns' id, dependency c' ns' id = dependency c ns' id) as Hsame.
  { intros. unfold dependency. by rewrite Hcfg. }
  exists f, (digest (lenientStream refs f)). repeat split; try done.
  - rewrite Hres. f_equal. rewrite Sync_errors_nil, applyMutations_ok; [done| |].
    + intros id Hm. apply Sync_mutations_elem in Hm
        as [(? & ? & [=] & _)|(r & dep & _ & [= ->] & Hc & _)].
      unfold dependency. by eexists.
    + intros r Hin Hr. rewrite Hcfg. by apply Hp.
  - rewrite Hworld, applyMutations_deployments. apply Hdeps.
  - intros ns' id. by rewrite Hworld, applyMutations_data, Hsame.
  - intros Hedge. rewrite Hworld in H.
    by apply (sync_closure ns o refs c' id dep (Extract_NoDup _)).
  - intros Hin. rewrite Hworld in H.
    by apply (sync_closure ns o refs c' id dep (Extract_NoDup _)).
Qed.

(** A run on a cluster that is already in the desired state writes
    nothing. *)
Lemma handle_converged (inst : PodController) (c : Cluster) f (h : string) :
  result (fetchDependencies (metaNamespace (pcMeta inst))
                            (Extract (pcTemplate inst)) c) = inl f →
  Fingerprint (Extract (pcTemplate inst)) f = inl h →
  storedHash inst = Some h →
  (∀ id dep, dependency c (metaNamespace (pcMeta inst)) id = Some dep →
             hasEdgeTo (Deployment, metaName (pcMeta inst)) dep = true
             ↔ id ∈ refId <$> Extract (pcTemplate inst)) →
  writes (trace (HandleDeployment inst c)) = [].
Proof.
  intros HF HP Hh Hcl.
  assert (ownerStep inst h c = (None, c, [])) as HU.
  { unfold ownerStep. by rewrite bool_decide_eq_false_2 by (by intros []). }
  destruct (handle_fingerprinted inst c f h HF HP) as (_ & _ & ->);
    [by rewrite HU|].
  rewrite HU. cbn [world trace fst snd].
  rewrite Sync_converged; [done|]. intros id dep Hc. by apply Hcl.
Qed.

Lemma Extract_setConfigHash (h : string) (inst : PodController) :
  Extract (pcTemplate (setConfigHash h inst)) = Extract (pcTemplate inst).
Proof. done. Qed.

(** C8. Whatever the cluster, a second run of the orchestrator right
    after a first one sends no write request, neither for the Owner nor
    for any Dependency. *)
Theorem orchestrator_idempotent (request : Request) (c : Cluster) :
  writes (Orchestrate request (Orchestrate request c).1.2).2 = [].
Proof.
  set (ns := Namespace (requestNamespacedName request)).
  set (name := Name (requestNamespacedName request)).
  destruct (deployments c !! (ns, name)) as [d|] eqn:Hd.
  2:{ rewrite (Orchestrate_not_found request c Hd). cbn [fst snd].
      by rewrite (Orchestrate_not_found request c Hd). }
  rewrite (Orchestrate_found request c d Hd). cbn [fst snd].
  set (inst := servedInstance request d).
  set (refs := Extract (pcTemplate inst)).
  destruct (result (fetchDependencies ns refs c)) as [f|e] eqn:HF.
  2:{ (* the first run failed before any write: the second repeats it *)
      rewrite (handle_fetch_failed inst c e HF). cbn [world fst snd].
      rewrite (Orchestrate_found request c d Hd). cbn [fst snd]. fold inst.
      rewrite (handle_fetch_failed inst c e HF). cbn [trace fst snd].
      change (?x :: ?l) with ([x] ++ l).
      by rewrite !writes_app, (proj2 (fetch_reads _ _ _)). }
  destruct (Fingerprint refs f) as [h|e] eqn:HP.
  2:{ rewrite (handle_fingerprint_failed inst c f e HF HP). cbn [world fst snd].
      rewrite (Orchestrate_found request c d Hd). cbn [fst snd]. fold inst.
      rewrite (handle_fingerprint_failed inst c f e HF HP). cbn [trace fst snd].
      change (?x :: ?l) with ([x] ++ l).
      by rewrite !writes_app, (proj2 (fetch_reads _ _ _)). }
  (* the first run went through *)
  pose proof (fetch_result ns refs c) as Hfetch. rewrite HF in Hfetch.
  destruct Hfetch as [Hp _].
  pose proof (handle_present inst d c Hd eq_refl Hp) as Hrun. cbv zeta in Hrun.
  change (metaNamespace (pcMeta inst)) with ns in Hrun.
  change (metaName (pcMeta inst)) with name in Hrun.
  fold refs in Hrun.
  destruct Hrun as (f' & h' & HF' & HP' & _ & Hdeps & Hdata & Hcl).
  rewrite HF in HF'. injection HF' as <-.
  rewrite HP in HP'. injection HP' as <-.
  set (c1 := world (HandleDeployment inst c)) in *.
  (* the Owner as the second run reads it *)
  set (d1 := if bool_decide (storedHash inst ≠ Some h)
             then mkPodController (nextVersion (pcMeta inst))
                                  (pcTemplate (setConfigHash h inst))
             else d).
  assert (deployments c1 !! (ns, name) = Some d1) as Hd1.
  { rewrite Hdeps. unfold d1. destruct (bool_decide _); [|done].
    apply lookup_insert_eq. }
  rewrite (Orchestrate_found request c1 d1 Hd1). cbn [snd].
  set (inst1 := servedInstance request d1).
  assert (Extract (pcTemplate inst1) = refs) as Hrefs.
  { unfold inst1, d1. by destruct (bool_decide _). }
  assert (storedHash inst1 = Some h) as Hh.
  { unfold inst1, d1. destruct (bool_decide _) eqn:Hb.
    - unfold storedHash. cbn. apply lookup_insert_eq.
    - apply bool_decide_eq_false in Hb. by apply dec_stable in Hb. }
  change (?x :: ?l) with ([x] ++ l). rewrite writes_app.
  rewrite (handle_converged inst1 c1 f h); [done|..|done|].
  - rewrite Hrefs. change (metaNamespace (pcMeta inst1)) with ns.
    rewrite <-HF. apply fetch_result_ext. intros id. apply Hdata.
  - by rewrite Hrefs.
  - rewrite Hrefs. exact Hcl.
Qed.
End Orchestrator.

(** ** The finalizer invariant *)

Lemma elem_of_edgesTo c ns o id :
  id ∈ edgesTo c ns o ↔ ∃ dep, dependency c ns id = Some dep ∧ hasEdgeTo o dep = true.
Proof.
  unfold edgesTo, dependency. rewrite elem_of_dom. split.
  - intros [dep [Hdep He]%map_lookup_filter_Some]. eauto.
  - intros (dep & Hdep & He). exists dep. by apply map_lookup_filter_Some.
Qed.

Lemma FinalizerInvariant_alt c :
  FinalizerInvariant c ↔
  ∀ ns id dep, dependency c ns id = Some dep → hasFinalizer dep = hasEdge dep.
Proof.
  unfold FinalizerInvariant, dependency. split.
  - intros Hinv ns id dep Hdep. rewrite lookup_total_alt in Hdep.
    destruct (configs c !! ns) as [deps|] eqn:Hns; cbn in Hdep; [|done].
    by apply (Hinv ns deps Hns id dep).
  - intros Hinv ns deps Hns id dep Hdep. apply (Hinv ns id dep).
    by rewrite lookup_total_alt, Hns.
Qed.

Lemma hasEdge_removeEdge o dep :
  hasEdge (removeEdge o dep) = true → hasEdge dep = true.
Proof.
  unfold hasEdge, removeEdge. cbn.
  induction (metaOwnerReferences (coMeta dep)) as [|ref refs IH]; [done|].
  rewrite filter_cons. destruct (decide (pointsAt o ref = false)); cbn.
  - destruct (isEdge ref); [done|]. apply IH.
  - intros ->%IH. apply orb_true_r.
Qed.

Lemma addEdge_finalizer o dep : hasFinalizer (addEdge o dep) = true.
Proof.
  unfold hasFinalizer, addEdge. cbn. apply bool_decide_eq_true.
  destruct (bool_decide (FinalizerString ∈ metaFinalizers (coMeta dep))) eqn:Hb.
  - by apply bool_decide_eq_true in Hb.
  - apply elem_of_app. right. left.
Qed.

Lemma addEdge_edge o dep : hasEdge (addEdge o dep) = true.
Proof. unfold hasEdge, addEdge. cbn. rewrite existsb_app. cbn. apply orb_true_r. Qed.

Lemma removeEdge_finalizer o dep :
  hasEdge (removeEdge o dep) = false → hasFinalizer (removeEdge o dep) = false.
Proof.
  unfold hasEdge, hasFinalizer, removeEdge. cbn. intros ->.
  apply bool_decide_eq_false. by intros [? _]%list_elem_of_filter.
Qed.

Lemma patched_invariant o m dep :
  hasFinalizer dep = hasEdge dep →
  hasFinalizer (patched o m dep) = hasEdge (patched o m dep).
Proof.
  intros Hinv. destruct m as [id|id]; cbn; destruct (hasEdgeTo o dep); try done.
  - change (hasFinalizer (removeEdge o dep) = hasEdge (removeEdge o dep)).
    destruct (hasEdge (removeEdge o dep)) eqn:He.
    + rewrite <-(hasEdge_removeEdge o dep He), <-Hinv.
      unfold hasFinalizer, removeEdge. cbn.
      unfold hasEdge, removeEdge in He. cbn in He. by rewrite He.
    + by apply removeEdge_finalizer.
  - change (hasFinalizer (addEdge o dep) = hasEdge (addEdge o dep)).
    by rewrite addEdge_finalizer, addEdge_edge.
Qed.

Lemma applyMutation_invariant ns o m c :
  FinalizerInvariant c → FinalizerInvariant (world (applyMutation ns o m c)).
Proof.
  rewrite !FinalizerInvariant_alt. intros Hinv ns' id' dep'.
  destruct (applyMutation_spec ns o m c) as (_ & -> & _).
  case_decide; [|apply Hinv].
  destruct (dependency c ns' id') as [dep|] eqn:Hdep; [|done].
  intros [= <-]. apply patched_invariant. by apply (Hinv ns' id').
Qed.

Lemma applyMutations_invariant ns o ms c :
  FinalizerInvariant c → FinalizerInvariant (world (applyMutations ns o ms c)).
Proof.
  revert c. induction ms as [|m ms IH]; intros c Hinv; cbn [applyMutations]; [done|].
  rewrite run_bind, run_bind, run_ret. cbn [world fst snd].
  by apply IH, applyMutation_invariant.
Qed.

(** C7. Finalizer invariant.  If every Dependency of a cluster carries
    the finalizer exactly when it carries at least one ownership edge,
    then so does every Dependency of every cluster that [Sync] reaches from
    it, including the clusters in between two mutations of one [Sync].
    The two patches keep it so: adding an edge leaves the finalizer
    present, and removing an edge removes the finalizer whenever no edge
    remains. *)
Theorem finalizer_invariant (c0 c : Cluster) :
  FinalizerInvariant c0 → SyncReach c0 c →
  FinalizerInvariant c
  ∧ (∀ o dep, hasFinalizer (addEdge o dep) = true)
  ∧ (∀ o dep, hasEdge (removeEdge o dep) = false →
              hasFinalizer (removeEdge o dep) = false).
Proof.
  intros Hinv Hreach. split; [|split].
  - induction Hreach as [|c ns o desired ms _ IH _]; [done|].
    by apply applyMutations_invariant.
  - apply addEdge_finalizer.
  - apply removeEdge_finalizer.
Qed.

(** ** Ownership closure, determinism and missing dependencies *)

Lemma finalizer_invariant_witness :
  FinalizerInvariant
    (world (applyMutations "default" (Deployment, "web")
              (Sync (Deployment, "web") (Extract (pcTemplate sample.web))
                    (configs sample.cluster !!! "default")).1
              sample.cluster))
  ∧ (∀ o dep, hasFinalizer (addEdge o dep) = true)
  ∧ (∀ o dep, hasEdge (removeEdge o dep) = false →
              hasFinalizer (removeEdge o dep) = false).
Proof.
  apply (finalizer_invariant sample.cluster).
  - apply (bool_decide_unpack _). vm_compute. exact I.
  - apply reach_sync with (desired := Extract (pcTemplate sample.web)).
    + apply reach_start.
    + reflexivity.
Defined.

Section OwnershipSpec.
Context {encoding : Encoding}.

(** C6, amended.  After a successful reconciliation of an Owner that
    exists, the Dependencies of its namespace that carry an ownership edge
    to it are exactly the references extracted from its current pod
    template whose Dependency exists: a reference that is optional and
    whose Dependency is absent has nothing to carry an edge. *)
Theorem ownership_closure (request : Request) (c : Cluster) (d1 : PodController) :
  (Orchestrate request c).1.1 = (emptyResult, None) →
  deployments (Orchestrate request c).1.2
    !! (Namespace (requestNamespacedName request),
        Name (requestNamespacedName request)) = Some d1 →
  edgesTo (Orchestrate request c).1.2
          (Namespace (requestNamespacedName request))
          (Deployment, Name (requestNamespacedName request))
  = list_to_set (refId <$> Extract (pcTemplate d1))
    ∩ dom (configs (Orchestrate request c).1.2
             !!! Namespace (requestNamespacedName request)).
Proof.
  set (ns := Namespace (requestNamespacedName request)).
  set (name := Name (requestNamespacedName request)).
  destruct (deployments c !! (ns, name)) as [d|] eqn:Hd.
  2:{ rewrite (Orchestrate_not_found request c Hd). cbn [fst snd]. congruence. }
  rewrite (Orchestrate_found request c d Hd). cbn [fst snd].
  set (inst := servedInstance request d).
  set (refs := Extract (pcTemplate inst)).
  intros Hok Hd1.
  destruct (result (fetchDependencies ns refs c)) as [f|e] eqn:HF.
  2:{ by rewrite (handle_fetch_failed inst c e HF) in Hok. }
  destruct (Fingerprint refs f) as [h|e] eqn:HP.
  2:{ by rewrite (handle_fingerprint_failed inst c f e HF HP) in Hok. }
  pose proof (fetch_result ns refs c) as Hfetch. rewrite HF in Hfetch.
  destruct Hfetch as [Hp _].
  pose proof (handle_present inst d c Hd eq_refl Hp) as Hrun. cbv zeta in Hrun.
  change (metaNamespace (pcMeta inst)) with ns in Hrun.
  change (metaName (pcMeta inst)) with name in Hrun.
  fold refs in Hrun.
  destruct Hrun as (f' & h' & _ & _ & _ & Hdeps & _ & Hcl).
  set (c1 := world (HandleDeployment inst c)) in *.
  assert (Extract (pcTemplate d1) = refs) as ->.
  { rewrite Hdeps in Hd1. destruct (bool_decide _).
    - rewrite lookup_insert_eq in Hd1. by injection Hd1 as <-.
    - rewrite Hd in Hd1. by injection Hd1 as <-. }
  apply set_eq. intros id.
  rewrite elem_of_edgesTo, elem_of_intersection, elem_of_list_to_set, elem_of_dom.
  fold (dependency c1 ns id). split.
  - intros (dep & Hdep & He). split; [by apply (Hcl id dep)|by eexists].
  - intros [Hin [dep Hdep]]. exists dep. split; [done|]. by apply (Hcl id dep).
Qed.
End OwnershipSpec.

(** C6 as stated fails: [web] mounts the optional secret [extra], which
    does not exist.  The reconciliation succeeds, [extra] is among the
    extracted references, and no Dependency carries an edge for it. *)
Lemma ownership_closure_optional_absent :
  (@Orchestrate sample.plain sample.request sample.cluster).1.1 = (emptyResult, None)
  ∧ (λ d, Extract (pcTemplate d)) <$> deployments sample.afterFirstRun !! ("default", "web")
    = Some [mkReference ConfigMap "app-config" true; mkReference Secret "extra" false]
  ∧ edgesTo sample.afterFirstRun "default" (Deployment, "web")
    ≠ list_to_set [(ConfigMap, "app-config"); (Secret, "extra")].
Proof.
  split; [by vm_compute|]. split; [by vm_compute|].
  intros Heq.
  assert ((Secret, "extra") ∈ edgesTo sample.afterFirstRun "default" (Deployment, "web")) as Hin.
  { rewrite Heq. apply elem_of_list_to_set. right. left. }
  apply elem_of_edgesTo in Hin as (dep & Hdep & _).
  vm_compute in Hdep. discriminate Hdep.
Qed.

Lemma ownership_closure_witness :
  edgesTo sample.afterFirstRun "default" (Deployment, "web")
  = list_to_set (refId <$> Extract (pcTemplate sample.web))
    ∩ dom (configs sample.afterFirstRun !!! "default").
Proof.
  apply (@ownership_closure sample.plain sample.request sample.cluster
           (mkPodController
              (nextVersion (pcMeta (servedInstance sample.request sample.web)))
              (pcTemplate (setConfigHash "ConfigMap/app-config;x=1,Secret/extra;"
                             (servedInstance sample.request sample.web))))).
  - by vm_compute.
  - by vm_compute.
Defined.

Section FingerprintSpec.
Context {encoding : Encoding}.

(** C4. Fingerprint determinism.  The digest of [Fingerprint (Extract t)]
    is the same when the template lists its references in another order,
    when the fetched contents arrive in another order, and when the pairs
    of each content are iterated in another order.  Here [f] holds one
    entry per identity and one pair per key, as Go maps do; [g] is [f]
    reordered, and [f'] is [g] with the pairs of every entry reordered. *)
Theorem Fingerprint_deterministic (t t' : PodTemplateSpec)
    (f g f' : list (Identity * list (string * list byte))) :
  occurrences t ≡ₚ occurrences t' →
  NoDup f.*1 → Forall (λ e, NoDup e.2.*1) f →
  f ≡ₚ g → Forall2 (λ e e', e.1 = e'.1 ∧ e.2 ≡ₚ e'.2) g f' →
  Fingerprint (Extract t) f = Fingerprint (Extract t') f'.
Proof.
  intros Ht Hnd Hc Hp Hg. unfold Fingerprint.
  rewrite (Extract_permutation t t' Ht).
  by rewrite (stream_sameFetched _ f f' (reordered_sameFetched f g f' Hnd Hc Hp Hg)).
Qed.

(** C5. Missing dependencies, for an Owner [d] that exists.
    - [Fingerprint] fails with [MissingDependency], carrying the identity
      of a required reference whose content is absent, as soon as there is
      such a reference; otherwise it succeeds, and a content that is absent
      counts as empty.
    - If a required reference has no Dependency in the cluster, the
      reconciliation returns [MissingDependency] for such a reference, the
      cluster is unchanged, no write request is sent (so the annotation is
      not written), and a warning event is recorded.
    - If only optional references lack their Dependency, the
      reconciliation goes through and returns no error. *)
Theorem missing_dependency (request : Request) (c : Cluster) (d : PodController) :
  deployments c !! (Namespace (requestNamespacedName request),
                    Name (requestNamespacedName request)) = Some d →
  let ns := Namespace (requestNamespacedName request) in
  let name := Name (requestNamespacedName request) in
  let refs := Extract (pcTemplate d) in
  (∀ f r, r ∈ refs → rRequired r = true → lookupFetched (refId r) f = None →
     ∃ r', r' ∈ refs ∧ rRequired r' = true ∧ lookupFetched (refId r') f = None
           ∧ Fingerprint refs f = inr (MissingDependency (rKind r') (rName r')))
  ∧ (∀ f, (∀ r, r ∈ refs → rRequired r = true → is_Some (lookupFetched (refId r) f)) →
          Fingerprint refs f = inl (digest (lenientStream refs f)))
  ∧ (∀ r, r ∈ refs → rRequired r = true → dependency c ns (refId r) = None →
     ∃ r' t, r' ∈ refs ∧ rRequired r' = true ∧ dependency c ns (refId r') = None
             ∧ Orchestrate request c
               = ((emptyResult, Some (MissingDependency (rKind r') (rName r'))), c, t)
             ∧ writes t = []
             ∧ ReqEvent EventWarning ns name "MissingDependency" ∈ t)
  ∧ ((∀ r, r ∈ refs → rRequired r = true → is_Some (dependency c ns (refId r))) →
     (Orchestrate request c).1.1 = (emptyResult, None)).
Proof.
  intros Hd ns name refs. repeat split.
  - intros f r Hin Hr Hnone.
    destruct (stream_missing refs f r Hin Hr Hnone) as (r' & ? & ? & ? & Hs).
    exists r'. repeat split; [done..|]. unfold Fingerprint. by rewrite Hs.
  - intros f Hp. unfold Fingerprint. by rewrite stream_present.
  - intros r Hin Hr Hnone.
    destruct (handle_missing (servedInstance request d) c r Hin Hr Hnone)
      as (r' & Hin' & Hr' & Hnone' & Hrun).
    exists r'. eexists. do 3 (split; [done|]). split; [|split].
    + rewrite (Orchestrate_found request c d Hd), Hrun. reflexivity.
    + cbn [trace snd]. change (?x :: ?l) with ([x] ++ l).
      by rewrite !writes_app, (proj2 (fetch_reads _ _ _)).
    + cbn [trace snd]. right. apply elem_of_app. right. left.
  - intros Hp. rewrite (Orchestrate_found request c d Hd). cbn [fst].
    destruct (handle_present (servedInstance request d) d c Hd eq_refl Hp)
      as (_ & _ & _ & _ & Hres & _). exact Hres.
Qed.
End FingerprintSpec.

Lemma Fingerprint_deterministic_witness :
  @Fingerprint sample.plain
    (Extract (mkPodTemplateSpec ∅
       [ConfigMapVolume "app-config" false; SecretVolume "extra" true] [] []))
    [((ConfigMap, "app-config"),
      [("x", list_byte_of_string "1"); ("a", list_byte_of_string "2")]);
     ((Secret, "extra"), [])]
  = @Fingerprint sample.plain
    (Extract (mkPodTemplateSpec ∅
       [SecretVolume "extra" true; ConfigMapVolume "app-config" false] [] []))
    [((Secret, "extra"), []);
     ((ConfigMap, "app-config"),
      [("a", list_byte_of_string "2"); ("x", list_byte_of_string "1")])].
Proof.
  apply (@Fingerprint_deterministic sample.plain _ _ _
           [((Secret, "extra"), []);
            ((ConfigMap, "app-config"),
             [("x", list_byte_of_string "1"); ("a", list_byte_of_string "2")])]).
  - apply perm_swap.
  - apply (bool_decide_unpack _). vm_compute. exact I.
  - apply (bool_decide_unpack _). vm_compute. exact I.
  - apply perm_swap.
  - constructor; [by split|]. constructor; [|constructor].
    split; [done|apply perm_swap].
Defined.

Lemma missing_dependency_witness :
  ∃ r' t, r' ∈ Extract (pcTemplate sample.web) ∧ rRequired r' = true
          ∧ dependency sample.bare "default" (refId r') = None
          ∧ @Orchestrate sample.plain sample.request sample.bare
            = ((emptyResult, Some (MissingDependency (rKind r') (rName r'))),
               sample.bare, t)
          ∧ writes t = []
          ∧ ReqEvent EventWarning "default" "web" "MissingDependency" ∈ t.
Proof.
  apply (proj1 (proj2 (proj2
           (@missing_dependency sample.plain sample.request sample.bare sample.web
              eq_refl)))
           (mkReference ConfigMap "app-config" true)).
  - vm_compute. left.
  - reflexivity.
  - reflexivity.
Defined.

(** ** Further properties of the controller *)

Section AddFailures.
Context {W Ctrl : Type} {manager : deployment.Manager W Ctrl}.

(** X1. When [controller.New] fails, [add] returns its error, makes no
    [Watch] call at all, and leaves the world as [New] left it. *)
Theorem add_new_fails (w w1 : W) (err : error) :
  deployment.New "deployment-controller" w = (inr err, w1) →
  deployment.add w
  = (Some err, w1, [deployment.CallNew "deployment-controller"]).
Proof.
  intros Hnew. unfold deployment.add. rewrite run_bind, run_call, Hnew. done.
Qed.

(** X2. Whatever the manager does, [add] first creates the controller
    under the name "deployment-controller", and the watches it attempts
    are an initial segment of the three watches, in their order: no other
    watch, none twice, none out of order. *)
Theorem add_attempts_prefix (w : W) :
  head (trace (deployment.add w))
    = Some (deployment.CallNew "deployment-controller")
  ∧ deployment.watchesOf (trace (deployment.add w)) `prefix_of` deploymentWatches.
Proof.
  unfold deployment.add, mbind, M_bind, call, mret, M_ret, trace.
  destruct (deployment.New _ w) as [[c|e] w1]; cbn;
    [|split; [done|apply prefix_nil]].
  destruct (deployment.DoWatch c _ _ w1) as [[e|] w2]; cbn;
    [split; [done|by eexists]|].
  destruct (deployment.DoWatch c _ _ w2) as [[e|] w3]; cbn;
    [split; [done|by eexists]|].
  destruct (deployment.DoWatch c _ _ w3) as [[e|] w4]; cbn;
    split; done.
Qed.

(** X3. [add] stops at the first [Watch] that fails: it returns that
    error, the failed call is the last one it makes, and the world is as
    that call left it. *)
Theorem add_watch_fails (w w1 : W) (c : Ctrl) :
  deployment.New "deployment-controller" w = (inl c, w1) →
  (∀ err w2,
     deployment.DoWatch c (mkSource Deployment) EnqueueRequestForObject w1
       = (Some err, w2) →
     deployment.add w
     = (Some err, w2,
        [deployment.CallNew "deployment-controller";
         deployment.CallWatch (mkSource Deployment) EnqueueRequestForObject]))
  ∧ (∀ err w2 w3,
     deployment.DoWatch c (mkSource Deployment) EnqueueRequestForObject w1
       = (None, w2) →
     deployment.DoWatch c (mkSource ConfigMap)
                        (EnqueueRequestForOwner false Deployment) w2
       = (Some err, w3) →
     deployment.add w
     = (Some err, w3,
        [deployment.CallNew "deployment-controller";
         deployment.CallWatch (mkSource Deployment) EnqueueRequestForObject;
         deployment.CallWatch (mkSource ConfigMap)
                              (EnqueueRequestForOwner false Deployment)]))
  ∧ (∀ err w2 w3 w4,
     deployment.DoWatch c (mkSource Deployment) EnqueueRequestForObject w1
       = (None, w2) →
     deployment.DoWatch c (mkSource ConfigMap)
                        (EnqueueRequestForOwner false Deployment) w2
       = (None, w3) →
     deployment.DoWatch c (mkSource Secret)
                        (EnqueueRequestForOwner false Deployment) w3
       = (Some err, w4) →
     deployment.add w
     = (Some err, w4,
        [deployment.CallNew "deployment-controller";
         deployment.CallWatch (mkSource Deployment) EnqueueRequestForObject;
         deployment.CallWatch (mkSource ConfigMap)
                              (EnqueueRequestForOwner false Deployment);
         deployment.CallWatch (mkSource Secret)
                              (EnqueueRequestForOwner false Deployment)])).
Proof.
  intros Hnew. unfold deployment.add, mbind, M_bind, call, mret, M_ret.
  rewrite Hnew. repeat split.
  - intros err w2 H1. by rewrite H1.
  - intros err w2 w3 H1 H2. by rewrite H1, H2.
  - intros err w2 w3 w4 H1 H2 H3. by rewrite H1, H2, H3.
Qed.
End AddFailures.

Lemma add_new_fails_witness :
  @deployment.add _ _ sample.barren []
  = (Some sample.unavailable, [], [deployment.CallNew "deployment-controller"]).
Proof. apply (@add_new_fails _ _ sample.barren [] [] sample.unavailable). reflexivity. Defined.

Lemma add_watch_fails_witness :
  @deployment.add _ _ sample.brittle []
  = (Some sample.unavailable,
     [mkWatch (mkSource Deployment) EnqueueRequestForObject],
     [deployment.CallNew "deployment-controller";
      deployment.CallWatch (mkSource Deployment) EnqueueRequestForObject;
      deployment.CallWatch (mkSource ConfigMap)
                           (EnqueueRequestForOwner false Deployment)]).
Proof.
  apply (proj1 (proj2 (@add_watch_fails _ _ sample.brittle [] [] tt eq_refl))
           sample.unavailable
           [mkWatch (mkSource Deployment) EnqueueRequestForObject]);
    reflexivity.
Defined.

Section ReconcileMore.
Context {W : Type} {handler : deployment.Handler W}.

(** X4. When the fetch of the Owner succeeds, [Reconcile] calls
    [HandleDeployment] once, on the instance just fetched and in the world
    the fetch left, and returns its result and its error unchanged. *)
Theorem Reconcile_delegates (request : Request) (w w1 : W) (instance : PodController) :
  deployment.Get (requestNamespacedName request) zeroPodController w
    = ((instance, None), w1) →
  deployment.Reconcile request w
  = ((deployment.HandleDeployment instance w1).1,
     (deployment.HandleDeployment instance w1).2,
     [deployment.CallGet (requestNamespacedName request);
      deployment.CallHandleDeployment instance]).
Proof.
  intros Hget. unfold deployment.Reconcile, mbind, M_bind, call, mret, M_ret.
  rewrite Hget. cbn. by destruct (deployment.HandleDeployment instance w1).
Qed.

(** X5. [Reconcile] asks for no requeue of its own: whenever it returns
    without having called [HandleDeployment], the fetch had failed and the
    result is the empty one; the error is then nil only for NotFound. *)
Theorem Reconcile_result_of_its_own (request : Request) (w : W) :
  (∀ instance, deployment.CallHandleDeployment instance
               ∉ trace (deployment.Reconcile request w)) →
  (result (deployment.Reconcile request w)).1 = emptyResult
  ∧ ∃ err,
      (deployment.Get (requestNamespacedName request) zeroPodController w).1.2
        = Some err
      ∧ (result (deployment.Reconcile request w)).2
        = if IsNotFound err then None else Some err.
Proof.
  unfold deployment.Reconcile, mbind, M_bind, call, mret, M_ret, result, trace.
  destruct (deployment.Get _ _ w) as [[instance [err|]] w1]; cbn.
  - intros _. destruct (IsNotFound err) eqn:Hnf; cbn; split; try done;
      exists err; by rewrite Hnf.
  - destruct (deployment.HandleDeployment instance w1) as [r w2]. cbn.
    intros Hno. destruct (Hno instance). right. left.
Qed.
End ReconcileMore.

Lemma Reconcile_delegates_witness :
  @deployment.Reconcile _ (@core.handler sample.plain) sample.request
     (mkWorld sample.cluster [])
  = ((@deployment.HandleDeployment _ (@core.handler sample.plain)
        (servedInstance sample.request sample.web)
        (mkWorld sample.cluster [ReqGetDeployment "default" "web"])).1,
     (@deployment.HandleDeployment _ (@core.handler sample.plain)
        (servedInstance sample.request sample.web)
        (mkWorld sample.cluster [ReqGetDeployment "default" "web"])).2,
     [deployment.CallGet (mkNamespacedName "default" "web");
      deployment.CallHandleDeployment (servedInstance sample.request sample.web)]).
Proof.
  apply (@Reconcile_delegates _ (@core.handler sample.plain) sample.request).
  reflexivity.
Defined.

Lemma Reconcile_result_of_its_own_witness :
  (result (@deployment.Reconcile _ sample.offline sample.request tt)).1 = emptyResult
  ∧ ∃ err,
      (@deployment.Get _ sample.offline (requestNamespacedName sample.request)
         zeroPodController tt).1.2 = Some err
      ∧ (result (@deployment.Reconcile _ sample.offline sample.request tt)).2
        = if IsNotFound err then None else Some err.
Proof.
  apply (@Reconcile_result_of_its_own _ sample.offline sample.request tt).
  intros instance Hin. cbn in Hin.
  apply list_elem_of_singleton in Hin. discriminate Hin.
Defined.

(** ** Further properties of the matchers *)

Section MatcherMore.
Context {W : Type} {client : utils.Client W}.

(** X6. For a list type, [Eventually] polls [eventuallyList].  For an
    EventList, SecretList or ConfigMapList every poll makes one [List]
    call into a fresh, empty list of the same type (the items of the list
    passed in are not used) and returns the list read, or panics with the
    error of that call.  For any other list type every poll panics with
    "Unknown List type." before any call is made. *)
Theorem Eventually_list_dispatch (obj : RuntimeObject) :
  IsListType obj = true →
  ∃ list,
    utils.Eventually obj = Returned (utils.PollList list)
    ∧ match obj with
      | EventList _ | SecretList _ | ConfigMapList _ =>
          ∀ w : W,
            list w
            = (match (utils.List (matchers.emptyLike obj) w).1 with
               | (_, Some e) => Panicked (PanicError e)
               | (u, None) => Returned u
               end,
               (utils.List (matchers.emptyLike obj) w).2,
               [utils.CallList (matchers.emptyLike obj)])
      | _ => ∀ w : W, list w = (Panicked (PanicString "Unknown List type."), w, [])
      end.
Proof.
  intros Hlist. destruct obj; try discriminate Hlist; cbn;
    eexists; (split; [reflexivity|]); try done.
  all: intros w; unfold mbind, M_bind, call, mret, M_ret.
  all: match goal with |- context [utils.List ?u ?w0] =>
         destruct (utils.List u w0) as [[u' [e|]] w'] end; done.
Qed.

(** X7. [Eventually] reads only the type, the name and the namespace of
    the object it is given: two objects of the same type with the same
    name and namespace give the same assertion, whatever else they hold. *)
Theorem Eventually_reads_type_and_key (o1 o2 : Object) :
  utils.sameType o1 o2 = true →
  GetName o1 = GetName o2 → GetNamespace o1 = GetNamespace o2 →
  utils.Eventually (W := W) (Single o1) = utils.Eventually (Single o2).
Proof.
  intros Ht Hn Hns. unfold utils.Eventually. cbn. f_equal.
  unfold utils.eventuallyObject. rewrite Hn, Hns.
  destruct o1, o2; try discriminate Ht; reflexivity.
Qed.

(** X8. Every poll of [Consistently] makes one [Get], under the key of
    the object as passed in and into the caller's object, and nothing
    else; it returns the object as read, or panics with the error of that
    [Get].  There is no type switch: this holds for every type of
    object. *)
Theorem Consistently_poll (obj cur cur' : Object) (err : option error) (w w1 : W) :
  utils.Get (mkNamespacedName (GetNamespace obj) (GetName obj)) cur w
    = ((cur', err), w1) →
  ∃ get,
    matchers.Consistently obj = matchers.PollShared get
    ∧ get cur w
      = (match err with
         | Some e => Panicked (PanicError e)
         | None => Returned cur'
         end,
         w1,
         [utils.CallGet (mkNamespacedName (GetNamespace obj) (GetName obj)) cur]).
Proof.
  intros Hget. eexists. split; [reflexivity|].
  unfold mbind, M_bind, call, mret, M_ret. rewrite Hget. by destruct err.
Qed.

(** X9. An object of a type outside the five that [eventuallyObject]
    switches on is rejected by [Eventually] at every poll, before the
    client is called, but polled by [Consistently] like any other. *)
Theorem Consistently_accepts_other_types (goType : string) (m : ObjectMeta) :
  (∃ get,
     utils.Eventually (W := W) (Single (OtherObj goType m))
       = Returned (utils.PollObject get)
     ∧ ∀ w, get w = (Panicked (PanicString "Unknown Object type."), w, []))
  ∧ (∃ get,
     matchers.Consistently (W := W) (OtherObj goType m) = matchers.PollShared get
     ∧ ∀ cur w,
         trace (get cur w)
           = [utils.CallGet (mkNamespacedName (metaNamespace m) (metaName m)) cur]
         ∧ ∀ msg, result (get cur w) ≠ Panicked (PanicString msg)).
Proof.
  split; eexists; (split; [reflexivity|]); [done|].
  intros cur w. unfold mbind, M_bind, call, mret, M_ret, trace, result. cbn.
  destruct (utils.Get _ cur w) as [[cur' [e|]] w1]; cbn; split; done.
Qed.

(** X10. An attempt of [Matcher.Get] is one [Get] into the caller's
    object and returns its error.  It is the first half of an attempt of
    [Matcher.Update] on the same object: when the [Get] fails the two
    attempts are the same, and when it succeeds the attempt of [Update]
    makes the same call and then one [Update]. *)
Theorem MatcherGet_attempt (obj : Object) (fn : utils.UpdateFunc) :
  ∃ get update,
    matchers.MatcherGet obj = utils.PollError get
    ∧ utils.MatcherUpdate obj fn = utils.PollError update
    ∧ ∀ (cur : Object) (w : W),
        get cur w
        = ((utils.Get (mkNamespacedName (GetNamespace obj) (GetName obj)) cur w).1.2,
           (utils.Get (mkNamespacedName (GetNamespace obj) (GetName obj)) cur w).2,
           [utils.CallGet (mkNamespacedName (GetNamespace obj) (GetName obj)) cur])
        ∧ match result (get cur w) with
          | Some _ => update cur w = get cur w
          | None =>
              trace (update cur w)
              = trace (get cur w)
                ++ [utils.CallUpdate
                      (fn (utils.Get (mkNamespacedName (GetNamespace obj) (GetName obj))
                                     cur w).1.1)]
          end.
Proof.
  do 2 eexists. split; [reflexivity|]. split; [reflexivity|].
  intros cur w. unfold mbind, M_bind, call, mret, M_ret, trace, result.
  destruct (utils.Get _ cur w) as [[cur' [e|]] w1]; cbn; [done|].
  split; [done|]. by destruct (utils.Update (fn cur') w1).
Qed.

(** X11. [WithPodTemplateAnnotations] returns the annotations of the pod
    template, not those of the object, for a Deployment, a StatefulSet or
    a DaemonSet, and panics with "Unknown pod template type." for every
    other object.  ConfigMaps and Secrets are among the latter, although
    the type switch of [Eventually] accepts them. *)
Theorem WithPodTemplateAnnotations_types (obj : Object) :
  match obj with
  | DeploymentObj d | StatefulSetObj d | DaemonSetObj d =>
      matchers.WithPodTemplateAnnotations obj
        = Returned (templateAnnotations (pcTemplate d))
  | ConfigMapObj _ | SecretObj _ =>
      matchers.WithPodTemplateAnnotations obj
        = Panicked (PanicString "Unknown pod template type.")
      ∧ ∃ get, utils.Eventually (W := W) (Single obj) = Returned (utils.PollObject get)
               ∧ ∀ w msg, result (get w) ≠ Panicked (PanicString msg)
  | OtherObj _ _ =>
      matchers.WithPodTemplateAnnotations obj
        = Panicked (PanicString "Unknown pod template type.")
  end.
Proof.
  destruct obj; cbn; try done.
  all: split; [done|]. all: eexists; split; [reflexivity|].
  all: intros w msg; unfold mbind, M_bind, call, mret, M_ret, result; cbn.
  all: match goal with |- context [utils.Get ?k ?u ?w0] =>
         destruct (utils.Get k u w0) as [[u' [e|]] w'] end; done.
Qed.
End MatcherMore.

Lemma Eventually_list_dispatch_witness :
  ∃ list,
    @utils.Eventually _ sample.memory (SecretList [sample.appConfig])
      = Returned (utils.PollList list)
    ∧ ∀ w,
        list w
        = (match (@utils.List _ sample.memory (SecretList []) w).1 with
           | (_, Some e) => Panicked (PanicError e)
           | (u, None) => Returned u
           end,
           (@utils.List _ sample.memory (SecretList []) w).2,
           [utils.CallList (SecretList [])]).
Proof.
  apply (@Eventually_list_dispatch _ sample.memory (SecretList [sample.appConfig])).
  reflexivity.
Defined.

Lemma Eventually_reads_type_and_key_witness :
  @utils.Eventually _ sample.memory (Single (DeploymentObj sample.web))
  = @utils.Eventually _ sample.memory (Single (DeploymentObj sample.webEdited)).
Proof.
  apply (@Eventually_reads_type_and_key _ sample.memory
           (DeploymentObj sample.web) (DeploymentObj sample.webEdited));
    reflexivity.
Defined.

Lemma Consistently_poll_witness :
  ∃ get,
    @matchers.Consistently _ sample.memory (ConfigMapObj sample.appConfig)
      = matchers.PollShared get
    ∧ get (ConfigMapObj sample.appConfig) ∅
      = (Panicked (PanicError core.notFound), ∅,
         [utils.CallGet (mkNamespacedName "default" "app-config")
                        (ConfigMapObj sample.appConfig)]).
Proof.
  apply (@Consistently_poll _ sample.memory (ConfigMapObj sample.appConfig)
           (ConfigMapObj sample.appConfig) (ConfigMapObj sample.appConfig)
           (Some core.notFound) ∅ ∅).
  reflexivity.
Defined.
